(** * TypeDORM [BaseTransformer]: schema resolution over JavaScript values

    Shallow embedding of
    [packages/core/src/classes/transformer/base-transformer.ts]:
    the recursive schema walker [recursiveParseEntity], the primary-key
    resolver [getParsedPrimaryKey], the entity-to-storage transform
    [toDynamoEntity] with its index normaliser, and the affected-index
    calculator [getAffectedIndexesForAttributes].

    The transformer is written against [any]-typed schema objects, so the
    embedding works on an untyped tree of JavaScript values and spells out
    what property access, [Object.keys], object spread and truthiness do on
    them.  Exceptions are an explicit error result. *)

From Stdlib Require Import String Ascii List ZArith Bool Lia.
From Stdlib Require Import DecimalString.
Import ListNotations.
Open Scope string_scope.
Open Scope list_scope.

Set Warnings "-register-all".

(** ** JavaScript values *)

(** Numbers are restricted to integers; the transformer never does
    arithmetic on them, it only tests them for truthiness and prints
    them.  Objects keep their own enumerable properties in insertion
    order. *)
Inductive value : Type :=
| VUndefined
| VNull
| VBool (b : bool)
| VNum (n : Z)
| VStr (s : string)
| VArr (xs : list value)
| VObj (fields : list (string * value)).

Definition obj : Type := list (string * value).

(** The exceptions that can leave the transformer. *)
Inductive error : Type :=
| MissingAttributeError
| TypeError.

Inductive result (A : Type) : Type :=
| Ok (a : A)
| Error (e : error).
Arguments Ok {A} a.
Arguments Error {A} e.

Definition bind {A B : Type} (r : result A) (k : A -> result B) : result B :=
  match r with
  | Ok a => k a
  | Error e => Error e
  end.

Notation "x <- r ;; k" := (bind r (fun x => k))
  (at level 61, r at next level, right associativity).

(** ** Objects as ordered property lists

    Property names are taken not to be array indices, which JavaScript
    would enumerate ahead of the others. *)

Module Obj.

(** [o[k]] read as an own property: the first binding of [k]. *)
Fixpoint get (o : obj) (k : string) : option value :=
  match o with
  | [] => None
  | (k', v) :: rest => if String.eqb k' k then Some v else get rest k
  end.

(** [o[k] = v]: overwrite in place when [k] is already a property,
    append otherwise. *)
Fixpoint set (o : obj) (k : string) (v : value) : obj :=
  match o with
  | [] => [(k, v)]
  | (k', v') :: rest =>
      if String.eqb k' k then (k', v) :: rest else (k', v') :: set rest k v
  end.

(** [Object.keys(o)]. *)
Definition keys (o : obj) : list string := map fst o.

(** [{...a, ...b}] for two objects. *)
Definition assign (a b : obj) : obj :=
  fold_left (fun acc kv => set acc (fst kv) (snd kv)) b a.

Definition has (o : obj) (k : string) : bool :=
  match get o k with
  | Some _ => true
  | None => false
  end.

(** A JavaScript object has each property name once. *)
Fixpoint nodup_keys (ks : list string) : bool :=
  match ks with
  | [] => true
  | k :: rest => negb (existsb (String.eqb k) rest) && nodup_keys rest
  end.

Definition wf (o : obj) : bool := nodup_keys (keys o).

End Obj.

(** ** Primitive operations of the language *)

(** [!!v]. *)
Definition truthy (v : value) : bool :=
  match v with
  | VUndefined | VNull => false
  | VBool b => b
  | VNum n => negb (Z.eqb n 0)
  | VStr s => negb (String.eqb s "")
  | VArr _ | VObj _ => true
  end.

(** Decimal rendering of array and string indices and of integers. *)
Definition nat_to_string (n : nat) : string :=
  NilEmpty.string_of_uint (Nat.to_uint n).

Definition Z_to_string (n : Z) : string :=
  NilEmpty.string_of_int (Z.to_int n).

Fixpoint indexed {A : Type} (i : nat) (xs : list A) : list (string * A) :=
  match xs with
  | [] => []
  | x :: rest => (nat_to_string i, x) :: indexed (S i) rest
  end.

Fixpoint chars (s : string) : list value :=
  match s with
  | EmptyString => []
  | String c rest => VStr (String c EmptyString) :: chars rest
  end.

(** The own enumerable properties of a value, as [Object.keys] and object
    spread see them.  [Object.keys] throws on [undefined] and [null]. *)
Definition own_entries (v : value) : obj :=
  match v with
  | VObj o => o
  | VArr xs => indexed 0 xs
  | VStr s => indexed 0 (chars s)
  | _ => []
  end.

Definition object_keys_entries (v : value) : result obj :=
  match v with
  | VUndefined | VNull => Error TypeError
  | _ => Ok (own_entries v)
  end.

(** [v[k]] / [v.k]: throws on [undefined] and [null], yields [undefined]
    for a property that is not there. *)
Definition get_prop (v : value) (k : string) : result value :=
  match v with
  | VUndefined | VNull => Error TypeError
  | _ => match Obj.get (own_entries v) k with
         | Some x => Ok x
         | None => Ok VUndefined
         end
  end.

(** [{...v}]: spreading [undefined], [null] or a primitive other than a
    string adds nothing. *)
Definition spread (v : value) : obj := Obj.assign [] (own_entries v).

(** [a ?? b]. *)
Definition nullish_or (a b : value) : value :=
  match a with
  | VUndefined | VNull => b
  | _ => a
  end.

(** [haystack.includes(needle)] on strings. *)
Fixpoint prefix_of (p s : string) : bool :=
  match p, s with
  | EmptyString, _ => true
  | String a p', String b s' => Ascii.eqb a b && prefix_of p' s'
  | String _ _, EmptyString => false
  end.

Fixpoint str_includes (haystack needle : string) : bool :=
  prefix_of needle haystack ||
  match haystack with
  | EmptyString => false
  | String _ rest => str_includes rest needle
  end.

(** ** Helpers imported by the transformer

    The transformer imports [parseKey], [isObject], [isScalarType] and
    [isEmptyObject] from the repository's [helpers] directory. *)

(** Modelled from the spec: the helper [isObject] ([helpers/is-object]) is
    missing.  The walker recurses "if the value is itself a nested schema
    object": true on plain objects, false on arrays, [null] and
    primitives. *)
Definition isObject (item : value) : bool :=
  match item with
  | VObj _ => true
  | _ => false
  end.

(** Modelled from the spec: the helper [isScalarType]
    ([helpers/is-scalar-type]) is missing.  "Values that are not scalar
    (object/array) are also excluded": strings, numbers and booleans are
    scalar. *)
Definition isScalarType (item : value) : bool :=
  match item with
  | VStr _ | VNum _ | VBool _ => true
  | _ => false
  end.

(** Modelled from the spec: the helper [isEmptyObject]
    ([helpers/is-empty-object]) is missing.  It guards "current index does
    not have any interpolations to resolve": no own property. *)
Definition isEmptyObject (item : value) : bool :=
  match own_entries item with
  | [] => true
  | _ :: _ => false
  end.

(** *** Key templates *)

(** A key template is literal text with [{attributeName}] placeholders. *)
Inductive segment : Type :=
| Lit (text : string)
| Ref (name : string).

Definition snoc (s : string) (c : ascii) : string :=
  (s ++ String c EmptyString)%string.

Definition lit_segment (text : string) : list segment :=
  match text with
  | EmptyString => []
  | _ => [Lit text]
  end.

(** Scanner: [name] is [Some n] while inside a placeholder whose name read
    so far is [n].  A brace that is never closed stays literal text. *)
Fixpoint scan (s : string) (text : string) (name : option string)
  : list segment :=
  match s with
  | EmptyString =>
      match name with
      | None => lit_segment text
      | Some n => lit_segment (text ++ "{" ++ n)%string
      end
  | String c rest =>
      match name with
      | None =>
          if Ascii.eqb c "{"%char then scan rest text (Some "")
          else scan rest (snoc text c) None
      | Some n =>
          if Ascii.eqb c "}"%char
          then lit_segment text ++ Ref n :: scan rest "" None
          else scan rest text (Some (snoc n c))
      end
  end.

Definition segments (template : string) : list segment :=
  scan template "" None.

(** The entity attributes a template refers to. *)
Fixpoint referenced (segs : list segment) : list string :=
  match segs with
  | [] => []
  | Lit _ :: rest => referenced rest
  | Ref n :: rest => n :: referenced rest
  end.

(** The text an attribute value is interpolated as; [None] when the
    attribute is absent or [undefined] (or is not a scalar, which cannot
    be interpolated). *)
Definition attribute_text (dict : obj) (name : string) : option string :=
  match Obj.get dict name with
  | Some (VStr s) => Some s
  | Some (VNum n) => Some (Z_to_string n)
  | Some (VBool true) => Some "true"
  | Some (VBool false) => Some "false"
  | _ => None
  end.

Fixpoint interpolate (segs : list segment) (dict : obj) : option string :=
  match segs with
  | [] => Some ""
  | Lit text :: rest =>
      match interpolate rest dict with
      | Some tail => Some (text ++ tail)%string
      | None => None
      end
  | Ref name :: rest =>
      match attribute_text dict name, interpolate rest dict with
      | Some text, Some tail => Some (text ++ tail)%string
      | _, _ => None
      end
  end.

(** Modelled from the spec: the helper [parseKey] ([helpers/parse-key]) is
    missing.  Spec 4.1: every placeholder is replaced by the attribute's
    value; when a referenced attribute is absent, a sparse resolution
    yields "absent" (here [undefined], which the walker's truthiness test
    drops) and a non-sparse one throws [MissingAttributeError].  Spec
    4.1 speaks of string templates and of resolver callables; callables
    are not modelled, and what a leaf that is neither does is not in the
    spec: the model lets it resolve to itself.  The statements about
    sparse nodes below keep to string leaves. *)
Definition parseKey (key : value) (dict : obj) (isSparseIndex : bool)
  : result value :=
  match key with
  | VStr template =>
      match interpolate (segments template) dict with
      | Some text => Ok (VStr text)
      | None => if isSparseIndex then Ok VUndefined
                else Error MissingAttributeError
      end
  | other => Ok other
  end.

(** ** The recursive schema walker *)

(** [!!currentValue.isSparse] for a nested schema object. *)
Definition own_isSparse (currentValue : value) : bool :=
  match Obj.get (own_entries currentValue) "isSparse" with
  | Some flag => truthy flag
  | None => false
  end.

(** One turn of the [reduce] callback of [recursiveParseEntity]; [nested]
    stands for the recursive call on a nested object. *)
Definition walk_step (nested : value -> result obj) (entity : obj)
  (isSparse : bool) (acc : result obj) (kv : string * value) : result obj :=
  acc <- acc ;;
  let (key, currentValue) := kv in
  if isObject currentValue then
    sub <- nested currentValue ;;
    Ok (Obj.set acc key (VObj sub))
  else
    parsedKey <- parseKey currentValue entity isSparse ;;
    if truthy parsedKey then Ok (Obj.set acc key parsedKey) else Ok acc.

(** The recursive call [this.recursiveParseEntity(currentValue, entity,
    !!currentValue.isSparse)]; it is only made on values that pass
    [isObject]. *)
Fixpoint parse_nested (entity : obj) (currentValue : value) {struct currentValue}
  : result obj :=
  match currentValue with
  | VObj fields =>
      fold_left
        (walk_step (parse_nested entity) entity (own_isSparse currentValue))
        fields (Ok [])
  | _ => Ok []
  end.

(** [recursiveParseEntity(schema, entity, isSparse = false)] on the own
    properties of [schema], in [Object.keys] order. *)
Definition recursiveParseEntity (schema : obj) (entity : obj)
  (isSparse : bool) : result obj :=
  fold_left (walk_step (parse_nested entity) entity isSparse) schema (Ok []).

(** [recursiveParseEntity] as the source declares it, on a [schema: any]:
    [Object.keys(schema)] is its first step and throws on [undefined] and
    [null]; the [reduce] then runs over the own properties. *)
Definition recursiveParseEntity_any (schema : value) (entity : obj)
  (isSparse : bool) : result obj :=
  entries <- object_keys_entries schema ;;
  recursiveParseEntity entries entity isSparse.

(** ** Tables and the connection *)

(** Modelled from the spec: [INDEX_TYPE] of [@typedorm/common] is missing.
    Spec 3: an index is of type GSI or LSI; the enumeration's members are
    two distinct string constants. *)
Inductive INDEX_TYPE : Type :=
| GSI
| LSI.

Definition INDEX_TYPE_value (t : INDEX_TYPE) : value :=
  match t with
  | GSI => VStr "GLOBAL_SECONDARY_INDEX"
  | LSI => VStr "LOCAL_SECONDARY_INDEX"
  end.

(** [v === INDEX_TYPE.t]. *)
Definition is_index_type (v : value) (t : INDEX_TYPE) : bool :=
  match v, INDEX_TYPE_value t with
  | VStr a, VStr b => String.eqb a b
  | _, _ => false
  end.

(** Modelled from the spec: the table index signature of
    [@typedorm/common] is missing.  Spec 3: "GSI -> {partitionKeyName,
    sortKeyName}; LSI -> {sortKeyName}". *)
Inductive IndexOptions : Type :=
| GSIOptions (partitionKey sortKey : string)
| LSIOptions (sortKey : string).

Definition IndexOptions_type (o : IndexOptions) : INDEX_TYPE :=
  match o with
  | GSIOptions _ _ => GSI
  | LSIOptions _ => LSI
  end.

Record Table : Type := {
  name : string;
  indexes : list (string * IndexOptions)
}.

Fixpoint find_index (sigs : list (string * IndexOptions)) (key : string)
  : option IndexOptions :=
  match sigs with
  | [] => None
  | (k, o) :: rest => if String.eqb k key then Some o else find_index rest key
  end.

(** Modelled from the spec: [Table.getIndexByKey] is missing.  Spec 4.3:
    "look up the table's signature for that index name"; [None] is the
    [undefined] of a name the table does not declare. *)
Definition getIndexByKey (table : Table) (key : value) : option IndexOptions :=
  match key with
  | VStr k => find_index (indexes table) k
  | _ => None
  end.

(** [tableIndexSignature.type]: a property read, which throws when the
    signature is [undefined]. *)
Definition signature_type (tableIndexSignature : option IndexOptions)
  : result INDEX_TYPE :=
  match tableIndexSignature with
  | Some o => Ok (IndexOptions_type o)
  | None => Error TypeError
  end.

Definition EntityTarget : Type := string.

Record EntityMetadata : Type := {
  table : Table;
  schema : obj
}.

(** Attribute descriptors; [IsAutoGeneratedAttributeMetadata] tells the
    second kind, which carries the generated [value]. *)
Inductive AttributeMetadata : Type :=
| PlainAttribute (attr_name : string)
| AutoGeneratedAttribute (attr_name : string) (attr_value : value).

Record Connection : Type := {
  getEntityByTarget : EntityTarget -> EntityMetadata;
  getAttributesForEntity : EntityTarget -> list AttributeMetadata
}.

(** [getTableNameForEntity(entityClass)]. *)
Definition getTableNameForEntity (connection : Connection)
  (entityClass : EntityTarget) : string :=
  name (table (getEntityByTarget connection entityClass)).

(** [getParsedPrimaryKey(table, primaryKey, attributes)]:
    [recursiveParseEntity(primaryKey.attributes, attributes)]. *)
Definition getParsedPrimaryKey (table : Table) (primaryKey : value)
  (attributes : obj) : result obj :=
  declared <- get_prop primaryKey "attributes" ;;
  schema <- object_keys_entries declared ;;
  recursiveParseEntity schema attributes false.

(** ** The index normaliser *)

(** [index.metadata.type]. *)
Definition declared_type (index : value) : result value :=
  metadata <- get_prop index "metadata" ;;
  get_prop metadata "type".

(** The key names a signature declares. *)
Definition signature_keys (o : IndexOptions) : list string :=
  match o with
  | GSIOptions partitionKey sortKey => [partitionKey; sortKey]
  | LSIOptions sortKey => [sortKey]
  end.

(** [index.metadata.type === INDEX_TYPE.t && tableIndexSignature.type ===
    INDEX_TYPE.t], with the short circuit of [&&]. *)
Definition both_of_type (index : value)
  (tableIndexSignature : option IndexOptions) (t : INDEX_TYPE) : result bool :=
  declared <- declared_type index ;;
  if is_index_type declared t then
    sig_type <- signature_type tableIndexSignature ;;
    Ok (match sig_type, t with
        | GSI, GSI | LSI, LSI => true
        | _, _ => false
        end)
  else Ok false.

(** The arrow function bound to [onlyKeysIndex] in [toDynamoEntity]. *)
Definition onlyKeysIndex (tableIndexSignature : option IndexOptions)
  (index : value) : result value :=
  gsi <- both_of_type index tableIndexSignature GSI ;;
  if gsi then
    match tableIndexSignature with
    | Some (GSIOptions partitionKey sortKey) =>
        attributes <- get_prop index "attributes" ;;
        pk <- get_prop attributes partitionKey ;;
        sk <- get_prop attributes sortKey ;;
        Ok (VObj (Obj.set (Obj.set [] partitionKey pk) sortKey sk))
    | _ => Error TypeError
    end
  else
    lsi <- both_of_type index tableIndexSignature LSI ;;
    if lsi then
      match tableIndexSignature with
      | Some (LSIOptions sortKey) =>
          attributes <- get_prop index "attributes" ;;
          sk <- get_prop attributes sortKey ;;
          Ok (VObj (Obj.set [] sortKey sk))
      | _ => Error TypeError
      end
    else Ok index.

(** One turn of the [reduce] over [Object.keys(indexes)]. *)
Definition normalize_step (table : Table) (acc : result obj)
  (kv : string * value) : result obj :=
  acc <- acc ;;
  let index := snd kv in
  metadata <- get_prop index "metadata" ;;
  index_name <- get_prop metadata "_name" ;;
  let tableIndexSignature :=
    getIndexByKey table (nullish_or index_name (VStr "")) in
  only <- onlyKeysIndex tableIndexSignature index ;;
  Ok (Obj.assign (spread (VObj acc)) (own_entries only)).

Definition normalizedIndexes (table : Table) (indexes : obj) : result obj :=
  fold_left (normalize_step table) indexes (Ok []).

(** ** The entity-to-storage transform, over a store of objects

    Entities are passed by reference.  The store holds the entity
    objects: an object literal that copies an entity allocates,
    [Object.assign] writes into its target.  The maps built from the
    schema never alias an entity and stay plain values. *)

Definition loc : Type := nat.

Record instance : Type := {
  constructor : EntityTarget;
  props : obj
}.

Definition store : Type := list instance.

(** Computations that read and write the store and may throw. *)
Definition M (A : Type) : Type := store -> result A * store.

Definition mret {A : Type} (a : A) : M A := fun st => (Ok a, st).

Definition mbind {A B : Type} (m : M A) (k : A -> M B) : M B :=
  fun st =>
    match m st with
    | (Ok a, st') => k a st'
    | (Error e, st') => (Error e, st')
    end.

Notation "x <~ m ;; k" := (mbind m (fun x => k))
  (at level 61, m at next level, right associativity).

Definition lift {A : Type} (r : result A) : M A := fun st => (r, st).

Definition deref (st : store) (l : loc) : instance :=
  nth l st {| constructor := "Object"; props := [] |}.

Definition read (l : loc) : M obj := fun st => (Ok (props (deref st l)), st).

(** [getConstructorForInstance(entity)]. *)
Definition getConstructorForInstance (l : loc) : M EntityTarget :=
  fun st => (Ok (constructor (deref st l)), st).

(** An object literal [{ ... }] with the given properties. *)
Definition alloc (o : obj) : M loc :=
  fun st => (Ok (length st), st ++ [{| constructor := "Object"; props := o |}]).

Fixpoint update (st : store) (l : loc) (f : obj -> obj) : store :=
  match st, l with
  | [], _ => []
  | i :: rest, O =>
      {| constructor := constructor i; props := f (props i) |} :: rest
  | i :: rest, S l' => i :: update rest l' f
  end.

(** [Object.assign(target, ...sources)]: copies the sources' properties
    into [target] and returns [target]. *)
Definition Object_assign (target : loc) (sources : list obj) : M loc :=
  fun st =>
    (Ok target,
     fold_left (fun s src => update s target (fun o => Obj.assign o src))
       sources st).

(** The [forEach] over the entity's attribute descriptors. *)
Fixpoint populate_generated (attrs : list AttributeMetadata) (entity : loc)
  : M loc :=
  match attrs with
  | [] => mret entity
  | PlainAttribute _ :: rest => populate_generated rest entity
  | AutoGeneratedAttribute attr_name attr_value :: rest =>
      fields <~ read entity ;;
      literal <~ alloc (Obj.set (spread (VObj fields)) attr_name attr_value) ;;
      entity' <~ Object_assign literal [] ;;
      populate_generated rest entity'
  end.

(** [toDynamoEntity(entity)]. *)
Definition toDynamoEntity (connection : Connection) (entity : loc) : M loc :=
  entityClass <~ getConstructorForInstance entity ;;
  let metadata := getEntityByTarget connection entityClass in
  entity <~ populate_generated
              (getAttributesForEntity connection entityClass) entity ;;
  fields <~ read entity ;;
  parsedSchema <~ lift (recursiveParseEntity (schema metadata) fields false) ;;
  primaryKey <~ lift (get_prop (VObj (schema metadata)) "primaryKey") ;;
  normalizedPrimaryKey <~
    lift (getParsedPrimaryKey (table metadata) primaryKey fields) ;;
  parsedIndexes <~ lift (get_prop (VObj parsedSchema) "indexes") ;;
  let indexes := spread parsedIndexes in
  normalized <~ lift (normalizedIndexes (table metadata) indexes) ;;
  let formattedSchema :=
    Obj.assign (spread (VObj normalizedPrimaryKey)) normalized in
  fields <~ read entity ;;
  alloc (Obj.assign (spread (VObj fields)) formattedSchema).

(** ** The affected-index calculator *)

(** [currentInterpolation.includes(attrKey)]: element test on an array,
    substring test on a string, not a function otherwise. *)
Definition includes (currentInterpolation : value) (attrKey : string)
  : result bool :=
  match currentInterpolation with
  | VArr xs =>
      Ok (existsb (fun x => match x with
                            | VStr s => String.eqb s attrKey
                            | _ => false
                            end) xs)
  | VStr s => Ok (str_includes s attrKey)
  | _ => Error TypeError
  end.

(** Body of the innermost [forEach], over the interpolation keys of one
    index.  [parseKey] is called without options: a non-sparse
    resolution. *)
Definition interpolation_step (currIndex : value) (attributes : obj)
  (attrKey : string) (acc : result obj) (kv : string * value) : result obj :=
  acc <- acc ;;
  let (interpolationKey, currentInterpolation) := kv in
  hit <- includes currentInterpolation attrKey ;;
  if hit then
    index_attributes <- get_prop currIndex "attributes" ;;
    template <- get_prop index_attributes interpolationKey ;;
    parsedIndex <- parseKey template attributes false ;;
    Ok (Obj.set acc interpolationKey parsedIndex)
  else Ok acc.

(** Body of the [forEach] over [Object.keys(indexes)]. *)
Definition index_step (attributes : obj) (attrKey : string)
  (acc : result obj) (kv : string * value) : result obj :=
  acc <- acc ;;
  let currIndex := snd kv in
  metadata <- get_prop currIndex "metadata" ;;
  declared <- get_prop metadata "_interpolations" ;;
  let interpolationsForCurrIndex := nullish_or declared (VObj []) in
  if isEmptyObject interpolationsForCurrIndex then Ok acc
  else
    fold_left (interpolation_step currIndex attributes attrKey)
      (own_entries interpolationsForCurrIndex) (Ok acc).

(** Callback of the [reduce] over [Object.keys(attributes)]. *)
Definition attribute_step (nestedKeySeparator : string) (indexes : value)
  (attributes : obj) (acc : result obj) (kv : string * value) : result obj :=
  acc <- acc ;;
  let (attrKey, currAttrValue) := kv in
  if str_includes attrKey nestedKeySeparator
     || negb (isScalarType currAttrValue)
  then Ok acc
  else if negb (truthy indexes) then Ok acc
  else fold_left (index_step attributes attrKey) (own_entries indexes) (Ok acc).

(** [options?.nestedKeySeparator ?? '.']. *)
Definition separator_of (options : option string) : string :=
  match options with
  | Some nestedKeySeparator => nestedKeySeparator
  | None => "."
  end.

(** The [indexes] bound by [const {schema: {indexes}} =
    this.connection.getEntityByTarget(entityClass)]. *)
Definition declared_indexes (connection : Connection)
  (entityClass : EntityTarget) : value :=
  match Obj.get (schema (getEntityByTarget connection entityClass)) "indexes" with
  | Some indexes => indexes
  | None => VUndefined
  end.

(** [getAffectedIndexesForAttributes(entityClass, attributes, options)];
    [options] is the optional [nestedKeySeparator]. *)
Definition getAffectedIndexesForAttributes (connection : Connection)
  (entityClass : EntityTarget) (attributes : obj) (options : option string)
  : result obj :=
  let nestedKeySeparator := separator_of options in
  let indexes := declared_indexes connection entityClass in
  fold_left (attribute_step nestedKeySeparator indexes attributes)
    attributes (Ok []).

(** ** The walker described as a tree transformation

    [prune_entries keep_leaf keep_node] rebuilds a schema node entry by
    entry, in order: a leaf becomes its resolved value and is kept when
    [keep_leaf] accepts that value, a nested node is rebuilt and kept when
    [keep_node] accepts the rebuilt node. *)

Section Pruning.

Variable keep_leaf : value -> bool.
Variable keep_node : obj -> bool.
Variable entity : obj.

Definition prune_entry (nested : value -> result obj) (isSparse : bool)
  (kv : string * value) : result obj :=
  let (key, currentValue) := kv in
  if isObject currentValue then
    sub <- nested currentValue ;;
    Ok (if keep_node sub then [(key, VObj sub)] else [])
  else
    resolved <- parseKey currentValue entity isSparse ;;
    Ok (if keep_leaf resolved then [(key, resolved)] else []).

Fixpoint prune_entries (nested : value -> result obj) (isSparse : bool)
  (entries : obj) : result obj :=
  match entries with
  | [] => Ok []
  | kv :: rest =>
      head <- prune_entry nested isSparse kv ;;
      tail <- prune_entries nested isSparse rest ;;
      Ok (head ++ tail)
  end.

Fixpoint prune_node (currentValue : value) : result obj :=
  match currentValue with
  | VObj fields =>
      prune_entries prune_node (own_isSparse currentValue) fields
  | _ => Ok []
  end.

Definition prune_tree (schema : obj) (isSparse : bool) : result obj :=
  prune_entries prune_node isSparse schema.

End Pruning.

(** The absence signal of a sparse resolution. *)
Definition is_absent (v : value) : bool :=
  match v with
  | VUndefined => true
  | _ => false
  end.

Definition is_nonempty (o : obj) : bool :=
  match o with
  | [] => false
  | _ :: _ => true
  end.

(** The walker in the words of spec 4.2: "a tree isomorphic to the input
    schema but with templates replaced by concrete values, and absent
    leaves (and any node that becomes fully empty as a result) pruned". *)
Definition spec_walk (schema : obj) (entity : obj) (isSparse : bool)
  : result obj :=
  prune_tree (fun v => negb (is_absent v)) is_nonempty entity schema isSparse.

(** What the code builds: a leaf is kept when its resolved value is
    truthy, a nested node is always kept. *)
Definition resolved_tree (schema : obj) (entity : obj) (isSparse : bool)
  : result obj :=
  prune_tree truthy (fun _ => true) entity schema isSparse.

(** Every object of the tree has each property name once. *)
Fixpoint wf_deep (v : value) : bool :=
  match v with
  | VObj fields =>
      Obj.nodup_keys (map fst fields)
      && forallb (fun kv => wf_deep (snd kv)) fields
  | _ => true
  end.

(** ** Well-typed index metadata

    The calculator reads [metadata._interpolations] of every index and
    calls [includes] on each entry.  The schema type makes [metadata] an
    object and every interpolation entry a list of attribute names. *)

Definition interpolations_of (index : value) : result obj :=
  metadata <- get_prop index "metadata" ;;
  declared <- get_prop metadata "_interpolations" ;;
  Ok (own_entries (nullish_or declared (VObj []))).

Definition is_name_list (v : value) : bool :=
  match v with
  | VArr _ | VStr _ => true
  | _ => false
  end.

Definition index_ok (index : value) : bool :=
  match interpolations_of index with
  | Ok entries => forallb (fun kv => is_name_list (snd kv)) entries
  | Error _ => false
  end.

Definition indexes_ok (indexes : value) : bool :=
  forallb (fun kv => index_ok (snd kv)) (own_entries indexes).

(** [attrKey] is referenced by an interpolation entry of some index. *)
Definition hits (attrKey : string) (kv : string * value) : bool :=
  match includes (snd kv) attrKey with
  | Ok hit => hit
  | Error _ => false
  end.

Definition index_references (attrKey : string) (index : value) : bool :=
  match interpolations_of index with
  | Ok entries => existsb (hits attrKey) entries
  | Error _ => false
  end.

Definition referenced_by_index (indexes : value) (attrKey : string) : bool :=
  existsb (fun kv => index_references attrKey (snd kv)) (own_entries indexes).

(** ** The transform as a function of the working entity *)

(** What one attribute descriptor does to the working copy in the
    [forEach] of [toDynamoEntity]. *)
Definition merge_generated (fields : obj) (attr : AttributeMetadata) : obj :=
  match attr with
  | PlainAttribute _ => fields
  | AutoGeneratedAttribute attr_name attr_value =>
      Obj.set (spread (VObj fields)) attr_name attr_value
  end.

Definition working_entity (attrs : list AttributeMetadata) (fields : obj)
  : obj :=
  fold_left merge_generated attrs fields.

(** The value of the last auto-generated descriptor named [key]. *)
Definition last_generated (attrs : list AttributeMetadata) (key : string)
  : option value :=
  fold_left
    (fun found attr =>
       match attr with
       | PlainAttribute _ => found
       | AutoGeneratedAttribute attr_name attr_value =>
           if String.eqb attr_name key then Some attr_value else found
       end)
    attrs None.

Definition is_plain (attr : AttributeMetadata) : bool :=
  match attr with
  | PlainAttribute _ => true
  | AutoGeneratedAttribute _ _ => false
  end.

(** The body of [toDynamoEntity] after the [forEach], on the properties
    of the working entity. *)
Definition storage_attributes (connection : Connection)
  (entityClass : EntityTarget) (entity : obj) : result obj :=
  let metadata := getEntityByTarget connection entityClass in
  parsedSchema <- recursiveParseEntity (schema metadata) entity false ;;
  primaryKey <- get_prop (VObj (schema metadata)) "primaryKey" ;;
  normalizedPrimaryKey <-
    getParsedPrimaryKey (table metadata) primaryKey entity ;;
  parsedIndexes <- get_prop (VObj parsedSchema) "indexes" ;;
  normalized <- normalizedIndexes (table metadata) (spread parsedIndexes) ;;
  Ok (Obj.assign (spread (VObj entity))
        (Obj.assign (spread (VObj normalizedPrimaryKey)) normalized)).

(** ** Leaves of a schema tree *)

(** [leaf_of schema isSparse leaf context]: [leaf] is a leaf of the tree
    rooted at [schema] walked with [isSparse], and [context] is the sparse
    flag it is resolved under. *)
Inductive leaf_of : obj -> bool -> value -> bool -> Prop :=
| leaf_here (schema : obj) (isSparse : bool) (key : string) (leaf : value) :
    In (key, leaf) schema -> isObject leaf = false ->
    leaf_of schema isSparse leaf isSparse
| leaf_below (schema : obj) (isSparse : bool) (key : string) (fields : obj)
    (leaf : value) (context : bool) :
    In (key, VObj fields) schema ->
    leaf_of fields (own_isSparse (VObj fields)) leaf context ->
    leaf_of schema isSparse leaf context.

(** ** Where a binding of the affected-index map comes from *)

(** [currIndex.attributes[interpolationKey]]. *)
Definition index_template (currIndex : value) (interpolationKey : string)
  : result value :=
  index_attributes <- get_prop currIndex "attributes" ;;
  get_prop index_attributes interpolationKey.

(** [(interpolationKey, parsed)] is the non-sparse resolution, against the
    change set, of the template some index declares for
    [interpolationKey], and the interpolation entry of that key references
    a key of the change set. *)
Definition justified (indexes : value) (attributes : obj)
  (interpolationKey : string) (parsed : value) : Prop :=
  exists index_name index entries names attrKey template,
    In (index_name, index) (own_entries indexes)
    /\ interpolations_of index = Ok entries
    /\ In (interpolationKey, names) entries
    /\ In attrKey (Obj.keys attributes)
    /\ includes names attrKey = Ok true
    /\ index_template index interpolationKey = Ok template
    /\ parseKey template attributes false = Ok parsed.

(** ** Statements used below *)

(** What the walker's result holds under [key] for the schema entry
    [(key, currentValue)], when [before] is what the accumulator held. *)
Definition entry_outcome (entity : obj) (isSparse : bool) (r : obj)
  (before : option value) (kv : string * value) : Prop :=
  let (key, currentValue) := kv in
  if isObject currentValue then
    exists sub, parse_nested entity currentValue = Ok sub
                /\ Obj.get r key = Some (VObj sub)
  else
    exists resolved, parseKey currentValue entity isSparse = Ok resolved
                     /\ Obj.get r key
                        = if truthy resolved then Some resolved else before.

(** The result covers every attribute name the primary-key schema
    declares. *)
Definition covers_declared (declared r : obj) : Prop :=
  forall key, In key (Obj.keys declared) -> Obj.has r key = true.

(** A computation that leaves every object of the store as it found it
    and at most adds new ones. *)
Definition allocates_only {A : Type} (m : M A) : Prop :=
  forall st, exists fresh, snd (m st) = st ++ fresh.

(** * Properties *)

(** ** Property lists *)

Module ObjFacts.

Lemma get_set_same (o : obj) (k : string) (v : value) :
  Obj.get (Obj.set o k v) k = Some v.
Proof.
  induction o as [|[k' v'] rest IH]; simpl.
  - now rewrite String.eqb_refl.
  - destruct (String.eqb k' k) eqn:E; simpl; rewrite E; auto.
Qed.

Lemma get_set_other (o : obj) (k k' : string) (v : value) :
  k <> k' -> Obj.get (Obj.set o k' v) k = Obj.get o k.
Proof.
  intros Hne. induction o as [|[k0 v0] rest IH]; simpl.
  - destruct (String.eqb k' k) eqn:E; auto.
    apply String.eqb_eq in E. congruence.
  - destruct (String.eqb k0 k') eqn:E; simpl.
    + apply String.eqb_eq in E. subst k0.
      destruct (String.eqb k' k) eqn:E'; auto.
      apply String.eqb_eq in E'. congruence.
    + now rewrite IH.
Qed.

Lemma get_none_not_in (o : obj) (k : string) :
  Obj.get o k = None <-> ~ In k (Obj.keys o).
Proof.
  induction o as [|[k' v'] rest IH]; simpl.
  - tauto.
  - destruct (String.eqb k' k) eqn:E.
    + apply String.eqb_eq in E. split; [discriminate | intros H; tauto].
    + apply String.eqb_neq in E. rewrite IH. tauto.
Qed.

Lemma set_fresh (o : obj) (k : string) (v : value) :
  Obj.get o k = None -> Obj.set o k v = o ++ [(k, v)].
Proof.
  induction o as [|[k' v'] rest IH]; simpl; auto.
  destruct (String.eqb k' k); [discriminate|].
  intros H. now rewrite IH.
Qed.

Lemma keys_set (o : obj) (k : string) (v : value) (x : string) :
  In x (Obj.keys (Obj.set o k v)) <-> x = k \/ In x (Obj.keys o).
Proof.
  induction o as [|[k' v'] rest IH]; simpl.
  - intuition.
  - destruct (String.eqb k' k) eqn:E; simpl.
    + apply String.eqb_eq in E. subst. intuition congruence.
    + rewrite IH. tauto.
Qed.

Lemma existsb_eqb_in (k : string) (ks : list string) :
  existsb (String.eqb k) ks = true <-> In k ks.
Proof.
  rewrite existsb_exists. split.
  - intros [x [Hin Heq]]. apply String.eqb_eq in Heq. now subst.
  - intros H. exists k. split; auto. apply String.eqb_refl.
Qed.

Lemma nodup_keys_NoDup (ks : list string) :
  Obj.nodup_keys ks = true <-> NoDup ks.
Proof.
  induction ks as [|k rest IH]; simpl.
  - split; auto using NoDup_nil.
  - rewrite andb_true_iff, negb_true_iff, IH. split.
    + intros [Hn Hd]. constructor; auto.
      intros Hin. apply existsb_eqb_in in Hin. congruence.
    + intros H. inversion H; subst. split; auto.
      destruct (existsb (String.eqb k) rest) eqn:E; auto.
      apply existsb_eqb_in in E. contradiction.
Qed.

Lemma wf_cons (kv : string * value) (rest : obj) :
  Obj.wf (kv :: rest) = true ->
  ~ In (fst kv) (Obj.keys rest) /\ Obj.wf rest = true.
Proof.
  unfold Obj.wf. intros H. apply nodup_keys_NoDup in H.
  simpl in H. inversion H; subst. split; auto.
  now apply nodup_keys_NoDup.
Qed.

Lemma in_keys (o : obj) (k : string) (v : value) :
  In (k, v) o -> In k (Obj.keys o).
Proof. intros H. unfold Obj.keys. now apply (in_map fst) in H. Qed.

Lemma get_in_wf (o : obj) (k : string) (v : value) :
  Obj.wf o = true -> In (k, v) o -> Obj.get o k = Some v.
Proof.
  induction o as [|[k' v'] rest IH]; simpl; [tauto|].
  intros Hwf Hin. apply wf_cons in Hwf. destruct Hwf as [Hfresh Hwf].
  simpl in Hfresh. destruct Hin as [Heq | Hin].
  - inversion Heq; subst. now rewrite String.eqb_refl.
  - destruct (String.eqb k' k) eqn:E; auto.
    apply String.eqb_eq in E. subst. apply in_keys in Hin. contradiction.
Qed.

Lemma get_in (o : obj) (k : string) (v : value) :
  Obj.get o k = Some v -> In (k, v) o.
Proof.
  induction o as [|[k' v'] rest IH]; simpl; [discriminate|].
  destruct (String.eqb k' k) eqn:E; auto.
  apply String.eqb_eq in E. intros H. inversion H; subst. now left.
Qed.

End ObjFacts.

(** ** Exceptions abort a [reduce] *)

Lemma fold_error {A : Type} (step : result obj -> A -> result obj)
  (Habsorb : forall e x, step (Error e) x = Error e)
  (l : list A) (e : error) :
  fold_left step l (Error e) = Error e.
Proof.
  induction l as [|x rest IH]; simpl; auto. now rewrite Habsorb.
Qed.

Lemma walk_step_error nested entity isSparse e kv :
  walk_step nested entity isSparse (Error e) kv = Error e.
Proof. reflexivity. Qed.

Lemma walk_fold_error nested entity isSparse l e :
  fold_left (walk_step nested entity isSparse) l (Error e) = Error e.
Proof. apply fold_error. intros; apply walk_step_error. Qed.

(** The recursive call is the walker run on the nested object's
    properties under that object's own sparse flag. *)
Lemma parse_nested_eq (entity : obj) (fields : obj) :
  parse_nested entity (VObj fields) =
  recursiveParseEntity fields entity (own_isSparse (VObj fields)).
Proof. reflexivity. Qed.


(** ** Induction over the value tree *)

Lemma value_tree_ind (P : value -> Prop) :
  P VUndefined -> P VNull -> (forall b, P (VBool b)) ->
  (forall n, P (VNum n)) -> (forall s, P (VStr s)) ->
  (forall xs, P (VArr xs)) ->
  (forall fields, Forall (fun kv => P (snd kv)) fields -> P (VObj fields)) ->
  forall v, P v.
Proof.
  intros Hundefined Hnull Hbool Hnum Hstr Harr Hobj.
  fix IH 1. intros [| |b|n|s|xs|fields];
    [exact Hundefined | exact Hnull | apply Hbool | apply Hnum | apply Hstr
    | apply Harr | ].
  apply Hobj. induction fields as [|kv rest IHfields]; constructor.
  - apply IH.
  - exact IHfields.
Qed.

(** ** The walker, one entry at a time *)


Lemma walk_fold_untouched entity isSparse l acc r k :
  fold_left (walk_step (parse_nested entity) entity isSparse) l (Ok acc) = Ok r ->
  ~ In k (Obj.keys l) ->
  Obj.get r k = Obj.get acc k.
Proof.
  revert acc. induction l as [|[key cv] rest IH]; simpl; intros acc Hr Hk.
  - now inversion Hr.
  - change (Obj.keys ((key, cv) :: rest)) with (key :: Obj.keys rest) in Hk.
    simpl in Hk.
    assert (Hne : k <> key) by (intros ->; tauto).
    assert (Hrest : ~ In k (Obj.keys rest)) by tauto.
    destruct (isObject cv).
    + destruct (parse_nested entity cv) as [sub|e]; simpl in Hr.
      * rewrite (IH _ Hr Hrest). now apply ObjFacts.get_set_other.
      * now rewrite walk_fold_error in Hr.
    + destruct (parseKey cv entity isSparse) as [v|e]; simpl in Hr.
      * destruct (truthy v).
        -- rewrite (IH _ Hr Hrest). now apply ObjFacts.get_set_other.
        -- apply (IH _ Hr Hrest).
      * now rewrite walk_fold_error in Hr.
Qed.

Lemma walk_fold_entries entity isSparse l acc r :
  Obj.wf l = true ->
  fold_left (walk_step (parse_nested entity) entity isSparse) l (Ok acc) = Ok r ->
  forall kv, In kv l ->
    entry_outcome entity isSparse r (Obj.get acc (fst kv)) kv.
Proof.
  revert acc. induction l as [|[key cv] rest IH]; simpl; intros acc Hwf Hr kv Hin.
  - contradiction.
  - apply ObjFacts.wf_cons in Hwf. destruct Hwf as [Hfresh Hwf]. simpl in Hfresh.
    destruct Hin as [<- | Hin].
    + unfold entry_outcome. simpl.
      destruct (isObject cv).
      * destruct (parse_nested entity cv) as [sub|e]; simpl in Hr.
        -- exists sub. split; auto.
           rewrite (walk_fold_untouched _ _ _ _ _ _ Hr Hfresh).
           apply ObjFacts.get_set_same.
        -- now rewrite walk_fold_error in Hr.
      * destruct (parseKey cv entity isSparse) as [v|e]; simpl in Hr.
        -- exists v. split; auto.
           destruct (truthy v);
             rewrite (walk_fold_untouched _ _ _ _ _ _ Hr Hfresh); auto.
           apply ObjFacts.get_set_same.
        -- now rewrite walk_fold_error in Hr.
    + assert (Hne : fst kv <> key).
      { intros Heq. apply Hfresh. rewrite <- Heq.
        destruct kv. eapply ObjFacts.in_keys; eauto. }
      destruct (isObject cv).
      * destruct (parse_nested entity cv) as [sub|e]; simpl in Hr.
        -- specialize (IH _ Hwf Hr kv Hin).
           now rewrite ObjFacts.get_set_other in IH.
        -- now rewrite walk_fold_error in Hr.
      * destruct (parseKey cv entity isSparse) as [v|e]; simpl in Hr.
        -- destruct (truthy v).
           ++ specialize (IH _ Hwf Hr kv Hin).
              now rewrite ObjFacts.get_set_other in IH.
           ++ apply (IH _ Hwf Hr kv Hin).
        -- now rewrite walk_fold_error in Hr.
Qed.

(** On an object schema the walker settles every declared entry. *)
Lemma walk_entries entity isSparse schema r :
  Obj.wf schema = true ->
  recursiveParseEntity schema entity isSparse = Ok r ->
  forall kv, In kv schema -> entry_outcome entity isSparse r None kv.
Proof.
  intros Hwf Hr kv Hin.
  apply (walk_fold_entries entity isSparse schema [] r Hwf Hr kv Hin).
Qed.

(** ** What the walker can throw *)

Lemma parseKey_error key dict isSparseIndex e :
  parseKey key dict isSparseIndex = Error e ->
  e = MissingAttributeError /\ isSparseIndex = false.
Proof.
  unfold parseKey. destruct key; try discriminate.
  destruct (interpolate (segments s) dict); [discriminate|].
  destruct isSparseIndex; [discriminate|].
  intros H. inversion H. auto.
Qed.

Lemma walk_fold_only_missing nested entity isSparse l :
  Forall (fun kv => forall e, nested (snd kv) = Error e ->
                              e = MissingAttributeError) l ->
  forall acc e,
    fold_left (walk_step nested entity isSparse) l (Ok acc) = Error e ->
    e = MissingAttributeError.
Proof.
  induction 1 as [|[key cv] rest Hhead _ IH]; simpl; intros acc e Hr.
  - discriminate.
  - destruct (isObject cv).
    + destruct (nested cv) as [sub|e'] eqn:En; simpl in Hr.
      * eapply IH; eauto.
      * rewrite walk_fold_error in Hr. inversion Hr; subst.
        now apply Hhead.
    + destruct (parseKey cv entity isSparse) as [v|e'] eqn:Ep; simpl in Hr.
      * destruct (truthy v); eapply IH; eauto.
      * rewrite walk_fold_error in Hr. inversion Hr; subst.
        now apply parseKey_error in Ep.
Qed.

Lemma parse_nested_only_missing entity v :
  forall e, parse_nested entity v = Error e -> e = MissingAttributeError.
Proof.
  induction v as [| | | | | |fields IH] using value_tree_ind;
    try (simpl; discriminate).
  intros e. simpl. apply walk_fold_only_missing. exact IH.
Qed.

Lemma walk_only_missing schema entity isSparse e :
  recursiveParseEntity schema entity isSparse = Error e ->
  e = MissingAttributeError.
Proof.
  unfold recursiveParseEntity. apply walk_fold_only_missing.
  apply Forall_forall. intros kv _ e'. apply parse_nested_only_missing.
Qed.

(** ** Templates that refer to an absent attribute *)

Lemma interpolate_absent segs dict name :
  In name (referenced segs) ->
  attribute_text dict name = None ->
  interpolate segs dict = None.
Proof.
  induction segs as [|[text|n] rest IH]; simpl; intros Hin Habs.
  - contradiction.
  - now rewrite IH.
  - destruct Hin as [-> | Hin].
    + now rewrite Habs.
    + rewrite IH by assumption. now destruct (attribute_text dict n).
Qed.

Lemma attribute_text_absent dict name :
  Obj.get dict name = None -> attribute_text dict name = None.
Proof. unfold attribute_text. now intros ->. Qed.

(** ** Primary keys *)


(** C1, as stated, fails: with the non-sparse primary-key schema
    [{PK: "{id}", SK: "{sk}"}] and the entity [{id: "42", sk: ""}], whose
    sort-key attribute is present and empty, [getParsedPrimaryKey]
    neither throws nor covers [SK]: it returns [{PK: "42"}]. *)
Lemma getParsedPrimaryKey_partial_map :
  let table := {| name := "users"; indexes := [] |} in
  let declared := [("PK", VStr "{id}"); ("SK", VStr "{sk}")] in
  let primaryKey := VObj [("attributes", VObj declared)] in
  let entity := [("id", VStr "42"); ("sk", VStr "")] in
  getParsedPrimaryKey table primaryKey entity = Ok [("PK", VStr "42")]
  /\ ~ (getParsedPrimaryKey table primaryKey entity = Error MissingAttributeError
        \/ exists r, getParsedPrimaryKey table primaryKey entity = Ok r
                     /\ covers_declared declared r).
Proof.
  simpl. split; [reflexivity|].
  intros [H | [r [H Hc]]]; [discriminate|].
  vm_compute in H. inversion H; subst r.
  specialize (Hc "SK"). simpl in Hc.
  assert (Habs : false = true) by (apply Hc; auto).
  discriminate.
Qed.

(** The same happens whatever the entity when a declared template is the
    empty text. *)
Lemma getParsedPrimaryKey_empty_template_left_out :
  let table := {| name := "users"; indexes := [] |} in
  let primaryKey :=
    VObj [("attributes", VObj [("PK", VStr "USER#{id}"); ("SK", VStr "")])] in
  getParsedPrimaryKey table primaryKey [("id", VStr "42")]
  = Ok [("PK", VStr "USER#42")].
Proof. reflexivity. Qed.

(** C1, amended: for a primary-key schema whose attribute map declares
    each name once, [getParsedPrimaryKey] either throws
    [MissingAttributeError] or returns a map in which every declared
    template that resolves to a non-empty text is bound to that text; a
    template that resolves to the empty text is left out. *)
Theorem getParsedPrimaryKey_truthy_or_missing
  (table : Table) (primaryKey : value) (declared attributes : obj) :
  get_prop primaryKey "attributes" = Ok (VObj declared) ->
  Obj.wf declared = true ->
  getParsedPrimaryKey table primaryKey attributes = Error MissingAttributeError
  \/ exists r,
       getParsedPrimaryKey table primaryKey attributes = Ok r
       /\ forall key template, In (key, VStr template) declared ->
            exists text,
              parseKey (VStr template) attributes false = Ok (VStr text)
              /\ Obj.get r key
                 = if String.eqb text "" then None else Some (VStr text).
Proof.
  intros Hattrs Hwf. unfold getParsedPrimaryKey. rewrite Hattrs. simpl.
  destruct (recursiveParseEntity declared attributes false) as [r|e] eqn:Hr.
  - right. exists r. split; auto. intros key template Hin.
    pose proof (walk_entries _ _ _ _ Hwf Hr _ Hin) as Hout.
    unfold entry_outcome, isObject in Hout.
    destruct Hout as [resolved [Hp Hg]]. unfold parseKey in Hp.
    destruct (interpolate (segments template) attributes) as [text|] eqn:Ei;
      [|discriminate].
    inversion Hp; subst resolved. exists text. split.
    + unfold parseKey. rewrite ?Ei. reflexivity.
    + rewrite Hg. simpl. now destruct (String.eqb text "").
  - left. apply walk_only_missing in Hr. now subst.
Qed.

Lemma getParsedPrimaryKey_truthy_or_missing_witness :
  let table := {| name := "users"; indexes := [] |} in
  let declared := [("PK", VStr "USER#{id}"); ("SK", VStr "{sk}")] in
  let primaryKey := VObj [("attributes", VObj declared)] in
  let entity := [("id", VStr "42"); ("sk", VStr "")] in
  getParsedPrimaryKey table primaryKey entity = Error MissingAttributeError
  \/ exists r,
       getParsedPrimaryKey table primaryKey entity = Ok r
       /\ forall key template, In (key, VStr template) declared ->
            exists text,
              parseKey (VStr template) entity false = Ok (VStr text)
              /\ Obj.get r key
                 = if String.eqb text "" then None else Some (VStr text).
Proof.
  simpl.
  apply (getParsedPrimaryKey_truthy_or_missing
           {| name := "users"; indexes := [] |}
           (VObj [("attributes",
                   VObj [("PK", VStr "USER#{id}"); ("SK", VStr "{sk}")])])
           [("PK", VStr "USER#{id}"); ("SK", VStr "{sk}")]
           [("id", VStr "42"); ("sk", VStr "")]);
    reflexivity.
Defined.

(** C10: [getParsedPrimaryKey] does not look at its [table] argument: for
    every primary-key schema and attribute bag, any two tables give the
    same result. *)
Theorem getParsedPrimaryKey_table_independent
  (t1 t2 : Table) (primaryKey : value) (attributes : obj) :
  getParsedPrimaryKey t1 primaryKey attributes
  = getParsedPrimaryKey t2 primaryKey attributes.
Proof. reflexivity. Qed.

(** ** Leaves the walker leaves out *)

(** C9: whatever the sparse context, a leaf whose template resolves to a
    falsy value (the empty string, say) is missing from the walker's
    result: the test is the truthiness of the resolved value. *)
Theorem recursiveParseEntity_omits_falsy_leaf
  (schema entity : obj) (isSparse : bool) (key : string)
  (leaf resolved : value) (r : obj) :
  Obj.wf schema = true ->
  In (key, leaf) schema ->
  isObject leaf = false ->
  parseKey leaf entity isSparse = Ok resolved ->
  truthy resolved = false ->
  recursiveParseEntity schema entity isSparse = Ok r ->
  Obj.get r key = None.
Proof.
  intros Hwf Hin Hleaf Hp Hfalsy Hr.
  pose proof (walk_entries _ _ _ _ Hwf Hr _ Hin) as Hout.
  unfold entry_outcome in Hout. rewrite Hleaf in Hout.
  destruct Hout as [resolved' [Hp' Hg]].
  rewrite Hp in Hp'. inversion Hp'; subst resolved'.
  now rewrite Hfalsy in Hg.
Qed.

Lemma recursiveParseEntity_omits_falsy_leaf_witness :
  Obj.get [("PK", VStr "USER#42")] "SK" = None.
Proof.
  apply (recursiveParseEntity_omits_falsy_leaf
           [("PK", VStr "USER#{id}"); ("SK", VStr "{sk}")]
           [("id", VStr "42"); ("sk", VStr "")]
           false "SK" (VStr "{sk}") (VStr "") [("PK", VStr "USER#42")]).
  - reflexivity.
  - simpl. right. left. reflexivity.
  - reflexivity.
  - reflexivity.
  - reflexivity.
  - reflexivity.
Defined.

(** ** Sparse nodes *)

(** C2, as stated, fails.  The attribute map of index [GSI1] carries a
    truthy [isSparse], so its templates are resolved in a sparse context,
    and [GSI1PK] refers to [email], which the entity [{id: "42"}] does
    not have.  Every leaf of the schema is a string.  The walker leaves
    [GSI1PK] out, yet the output of [toDynamoEntity] has both attribute
    names of the index: [GSI1SK], whose template resolves, with its
    value, and [GSI1PK], which the normaliser reads back under the
    signature's key name, with the value [undefined]. *)
Lemma toDynamoEntity_sparse_key_present :
  let sparse_attributes :=
    VObj [("isSparse", VStr "true");
          ("GSI1PK", VStr "EMAIL#{email}");
          ("GSI1SK", VStr "ID#{id}")] in
  let index :=
    VObj [("attributes", sparse_attributes);
          ("metadata", VObj [("_name", VStr "GSI1");
                             ("type", INDEX_TYPE_value GSI)])] in
  let entity_schema :=
    [("primaryKey", VObj [("attributes", VObj [("PK", VStr "USER#{id}")])]);
     ("indexes", VObj [("GSI1", index)])] in
  let users :=
    {| name := "users"; indexes := [("GSI1", GSIOptions "GSI1PK" "GSI1SK")] |} in
  let connection :=
    {| getEntityByTarget := fun _ => {| table := users; schema := entity_schema |};
       getAttributesForEntity := fun _ => [] |} in
  let st := [{| constructor := "User"; props := [("id", VStr "42")] |}] in
  own_isSparse sparse_attributes = true
  /\ In "email" (referenced (segments "EMAIL#{email}"))
  /\ Obj.get (props (deref st 0)) "email" = None
  /\ exists out st',
       toDynamoEntity connection 0 st = (Ok out, st')
       /\ Obj.get (props (deref st' out)) "GSI1PK" = Some VUndefined
       /\ Obj.get (props (deref st' out)) "GSI1SK" = Some (VStr "ID#42").
Proof.
  simpl. repeat split; auto.
  eexists. eexists. split; [vm_compute; reflexivity|].
  split; reflexivity.
Qed.

(** The sparse context of a leaf is the [isSparse] property of the object
    that holds it.  A flag on the index node or in its [metadata] does
    not reach the templates under [attributes]: they are resolved as
    non-sparse and the transform throws. *)
Lemma toDynamoEntity_flag_outside_attributes_throws :
  let index :=
    VObj [("isSparse", VStr "true");
          ("attributes", VObj [("GSI1PK", VStr "EMAIL#{email}");
                               ("GSI1SK", VStr "ID#{id}")]);
          ("metadata", VObj [("_name", VStr "GSI1");
                             ("type", INDEX_TYPE_value GSI);
                             ("isSparse", VStr "true")])] in
  let entity_schema :=
    [("primaryKey", VObj [("attributes", VObj [("PK", VStr "USER#{id}")])]);
     ("indexes", VObj [("GSI1", index)])] in
  let users :=
    {| name := "users"; indexes := [("GSI1", GSIOptions "GSI1PK" "GSI1SK")] |} in
  let connection :=
    {| getEntityByTarget := fun _ => {| table := users; schema := entity_schema |};
       getAttributesForEntity := fun _ => [] |} in
  let st := [{| constructor := "User"; props := [("id", VStr "42")] |}] in
  toDynamoEntity connection 0 st = (Error MissingAttributeError, st).
Proof. reflexivity. Qed.

(** A sparse resolution of a string template never throws. *)
Lemma parseKey_sparse_string (template : string) (dict : obj) :
  exists resolved, parseKey (VStr template) dict true = Ok resolved.
Proof.
  unfold parseKey. destruct (interpolate (segments template) dict); eauto.
Qed.

(** Where the non-sparse resolution of a template succeeds, the sparse
    one gives the same value. *)
Lemma parseKey_sparse_agrees (template : string) (dict : obj) (resolved : value) :
  parseKey (VStr template) dict false = Ok resolved ->
  parseKey (VStr template) dict true = Ok resolved.
Proof.
  unfold parseKey. destruct (interpolate (segments template) dict); auto.
  discriminate.
Qed.

Lemma walk_fold_sparse_templates nested entity l :
  (forall key leaf, In (key, leaf) l -> exists template, leaf = VStr template) ->
  forall acc, exists r,
    fold_left (walk_step nested entity true) l (Ok acc) = Ok r.
Proof.
  induction l as [|[key leaf] rest IH]; intros Hall acc; simpl; eauto.
  destruct (Hall key leaf (or_introl eq_refl)) as [template ->].
  simpl isObject. cbv iota.
  destruct (parseKey_sparse_string template entity) as [resolved ->]. simpl.
  destruct (truthy resolved); apply IH; intros k v H; eapply Hall; right; eauto.
Qed.

(** C2, amended: take a schema node that is resolved under a sparse
    context (its own [isSparse] is truthy) and declares each name once.
    When its entries are all string templates the walker returns a
    resolved node for it.  In every resolved node the walker returns, an
    attribute whose template refers to an attribute absent on the entity
    is missing, and every other template attribute is resolved as usual:
    it is bound to its non-sparse resolution whenever that is truthy. *)
Theorem sparse_node_omits_unresolved (fields entity : obj) :
  Obj.wf fields = true ->
  own_isSparse (VObj fields) = true ->
  ((forall key leaf, In (key, leaf) fields ->
      exists template, leaf = VStr template) ->
   exists r, parse_nested entity (VObj fields) = Ok r)
  /\ forall r, parse_nested entity (VObj fields) = Ok r ->
       (forall key template name,
          In (key, VStr template) fields ->
          In name (referenced (segments template)) ->
          Obj.get entity name = None ->
          Obj.get r key = None)
       /\ (forall key template resolved,
             In (key, VStr template) fields ->
             parseKey (VStr template) entity false = Ok resolved ->
             truthy resolved = true ->
             Obj.get r key = Some resolved).
Proof.
  intros Hwf Hsparse. rewrite parse_nested_eq, Hsparse. split.
  - intros Hall. now apply walk_fold_sparse_templates.
  - intros r Hr. split.
    + intros key template name Hin Hname Habsent.
      pose proof (walk_entries _ _ _ _ Hwf Hr _ Hin) as Hout.
      unfold entry_outcome, isObject in Hout.
      destruct Hout as [resolved [Hp Hg]].
      unfold parseKey in Hp.
      rewrite (interpolate_absent _ _ _ Hname
                 (attribute_text_absent _ _ Habsent)) in Hp.
      inversion Hp; subst resolved. exact Hg.
    + intros key template resolved Hin Hp Htruthy.
      pose proof (walk_entries _ _ _ _ Hwf Hr _ Hin) as Hout.
      unfold entry_outcome, isObject in Hout.
      destruct Hout as [resolved' [Hp' Hg]].
      rewrite (parseKey_sparse_agrees _ _ _ Hp) in Hp'.
      inversion Hp'; subst resolved'. now rewrite Htruthy in Hg.
Qed.

Lemma sparse_node_omits_unresolved_witness :
  let fields := [("isSparse", VStr "true");
                 ("GSI1PK", VStr "EMAIL#{email}");
                 ("GSI1SK", VStr "ID#{id}")] in
  let entity := [("id", VStr "42")] in
  exists r,
    parse_nested entity (VObj fields) = Ok r
    /\ Obj.get r "GSI1PK" = None
    /\ Obj.get r "GSI1SK" = Some (VStr "ID#42").
Proof.
  intros fields entity.
  destruct (sparse_node_omits_unresolved fields entity eq_refl eq_refl)
    as [Hreturns Hnode].
  destruct Hreturns as [r Hr].
  - intros key leaf [H | [H | [H | []]]]; inversion H; eauto.
  - exists r. split; [exact Hr|].
    destruct (Hnode r Hr) as [Homitted Hresolved]. split.
    + apply (Homitted "GSI1PK" "EMAIL#{email}" "email").
      * simpl. right. left. reflexivity.
      * simpl. left. reflexivity.
      * reflexivity.
    + apply (Hresolved "GSI1SK" "ID#{id}" (VStr "ID#42")).
      * simpl. right. right. left. reflexivity.
      * reflexivity.
      * reflexivity.
Defined.

(** ** The walker as a tree transformation *)

(** C3, as stated, fails.  Under the schema [{GSI1: {GSI1PK: "{email}"}}]
    the entity [{email: ""}] resolves the only leaf of [GSI1] to the empty
    string.  The walker drops that leaf and keeps [GSI1] as an empty
    node; the transformation of spec 4.2 keeps the resolved leaf, and
    would prune a node that ended up empty. *)
Lemma recursiveParseEntity_keeps_empty_node :
  let entity_schema := [("GSI1", VObj [("GSI1PK", VStr "{email}")])] in
  let entity := [("email", VStr "")] in
  recursiveParseEntity entity_schema entity false = Ok [("GSI1", VObj [])]
  /\ spec_walk entity_schema entity false
     = Ok [("GSI1", VObj [("GSI1PK", VStr "")])]
  /\ recursiveParseEntity entity_schema entity false
     <> spec_walk entity_schema entity false.
Proof.
  simpl. repeat split; try reflexivity.
  vm_compute. discriminate.
Qed.

(** A nested node that has no leaf to begin with is kept as well. *)
Lemma recursiveParseEntity_keeps_declared_empty_node (entity : obj) :
  recursiveParseEntity [("GSI1", VObj [])] entity false
  = Ok [("GSI1", VObj [])].
Proof. reflexivity. Qed.

Lemma walk_fold_prune entity isSparse nested nested' l :
  Obj.wf l = true ->
  Forall (fun kv => nested (snd kv) = nested' (snd kv)) l ->
  forall acc,
    (forall k, In k (Obj.keys l) -> Obj.get acc k = None) ->
    fold_left (walk_step nested entity isSparse) l (Ok acc)
    = (tail <- prune_entries truthy (fun _ => true) entity nested' isSparse l ;;
       Ok (acc ++ tail)).
Proof.
  intros Hwf Hagree. induction Hagree as [|[key cv] rest Hhead _ IH];
    intros acc Hfresh.
  - simpl. now rewrite app_nil_r.
  - apply ObjFacts.wf_cons in Hwf. destruct Hwf as [Hnew Hwf].
    simpl in Hnew, Hhead. specialize (IH Hwf).
    assert (Hkey : Obj.get acc key = None) by (apply Hfresh; now left).
    assert (Hnext : forall v k, In k (Obj.keys rest) ->
                                Obj.get (Obj.set acc key v) k = None).
    { intros v k Hk. rewrite ObjFacts.get_set_other.
      - apply Hfresh. now right.
      - intros ->. contradiction. }
    simpl. destruct (isObject cv).
    + rewrite Hhead. destruct (nested' cv) as [sub|e]; simpl.
      * rewrite (IH _ (Hnext (VObj sub))).
        destruct (prune_entries truthy (fun _ : obj => true) entity nested'
                    isSparse rest) as [tail|e]; simpl; auto.
        now rewrite (ObjFacts.set_fresh _ _ _ Hkey), <- app_assoc.
      * apply walk_fold_error.
    + destruct (parseKey cv entity isSparse) as [v|e]; simpl.
      * destruct (truthy v).
        -- rewrite (IH _ (Hnext v)).
           destruct (prune_entries truthy (fun _ : obj => true) entity nested'
                       isSparse rest) as [tail|e]; simpl; auto.
           now rewrite (ObjFacts.set_fresh _ _ _ Hkey), <- app_assoc.
        -- rewrite IH by (intros k Hk; apply Hfresh; now right).
           now destruct (prune_entries truthy (fun _ : obj => true) entity
                           nested' isSparse rest).
      * apply walk_fold_error.
Qed.

Lemma bind_ret_nil (r : result obj) : (tail <- r ;; Ok ([] ++ tail)) = r.
Proof. now destruct r. Qed.

Lemma wf_deep_fields fields :
  wf_deep (VObj fields) = true ->
  Obj.wf fields = true /\ Forall (fun kv => wf_deep (snd kv) = true) fields.
Proof.
  simpl. rewrite andb_true_iff, forallb_forall, Forall_forall. tauto.
Qed.

Lemma parse_nested_prune entity v :
  wf_deep v = true ->
  parse_nested entity v = prune_node truthy (fun _ => true) entity v.
Proof.
  induction v as [| | | | | |fields IH] using value_tree_ind;
    try reflexivity.
  intros Hwf. apply wf_deep_fields in Hwf. destruct Hwf as [Hwf Hdeep].
  simpl parse_nested. simpl prune_node.
  rewrite (walk_fold_prune entity _ (parse_nested entity)
             (prune_node truthy (fun _ => true) entity) fields Hwf).
  - apply bind_ret_nil.
  - rewrite Forall_forall in *. intros kv Hin. apply IH; auto.
  - reflexivity.
Qed.

(** C3, amended: on a schema tree whose objects declare each name once,
    the walker returns the input tree with each leaf replaced by its
    resolved value, every leaf whose resolved value is falsy left out (an
    absent sparse resolution, but also the empty string), and every nested
    node kept, also when it ends up empty. *)
Theorem recursiveParseEntity_resolved_tree
  (entity_schema entity : obj) (isSparse : bool) :
  wf_deep (VObj entity_schema) = true ->
  recursiveParseEntity entity_schema entity isSparse
  = resolved_tree entity_schema entity isSparse.
Proof.
  intros Hwf. apply wf_deep_fields in Hwf. destruct Hwf as [Hwf Hdeep].
  unfold recursiveParseEntity, resolved_tree, prune_tree.
  rewrite (walk_fold_prune entity isSparse (parse_nested entity)
             (prune_node truthy (fun _ => true) entity) entity_schema Hwf).
  - apply bind_ret_nil.
  - rewrite Forall_forall in *. intros kv Hin.
    apply parse_nested_prune; auto.
  - reflexivity.
Qed.

Lemma recursiveParseEntity_resolved_tree_witness :
  recursiveParseEntity
    [("PK", VStr "USER#{id}");
     ("GSI1", VObj [("isSparse", VBool true); ("GSI1PK", VStr "EMAIL#{email}")])]
    [("id", VStr "42")] false
  = resolved_tree
      [("PK", VStr "USER#{id}");
       ("GSI1", VObj [("isSparse", VBool true); ("GSI1PK", VStr "EMAIL#{email}")])]
      [("id", VStr "42")] false.
Proof.
  apply (recursiveParseEntity_resolved_tree
           [("PK", VStr "USER#{id}");
            ("GSI1", VObj [("isSparse", VBool true);
                           ("GSI1PK", VStr "EMAIL#{email}")])]
           [("id", VStr "42")] false).
  reflexivity.
Defined.

(** ** The index normaliser *)

Lemma is_index_type_exclusive (v : value) :
  is_index_type v GSI = true -> is_index_type v LSI = true -> False.
Proof.
  unfold is_index_type. destruct v; simpl; try discriminate.
  intros H1 H2. apply String.eqb_eq in H1, H2. subst. discriminate.
Qed.

Lemma get_prop_object (o : obj) (k : string) :
  exists v, get_prop (VObj o) k = Ok v.
Proof. simpl. destruct (Obj.get o k); eauto. Qed.

Lemma both_of_type_match (index declared : value) (sig : IndexOptions)
  (t : INDEX_TYPE) :
  declared_type index = Ok declared ->
  both_of_type index (Some sig) t
  = Ok (is_index_type declared t
        && match IndexOptions_type sig, t with
           | GSI, GSI | LSI, LSI => true
           | _, _ => false
           end).
Proof.
  intros Hd. unfold both_of_type. rewrite Hd. simpl.
  now destruct (is_index_type declared t).
Qed.

(** C4: when the index's declared type is the type of the table
    signature, the normalised index has exactly the key names the
    signature declares: the partition and sort key names for a GSI, the
    sort key name for an LSI. *)
Theorem onlyKeysIndex_exact_signature_keys
  (sig : IndexOptions) (index declared : value) (attributes : obj) :
  declared_type index = Ok declared ->
  is_index_type declared (IndexOptions_type sig) = true ->
  get_prop index "attributes" = Ok (VObj attributes) ->
  exists normalized,
    onlyKeysIndex (Some sig) index = Ok (VObj normalized)
    /\ forall k, In k (Obj.keys normalized) <-> In k (signature_keys sig).
Proof.
  intros Hd Ht Ha. unfold onlyKeysIndex.
  destruct sig as [partitionKey sortKey | sortKey]; simpl in Ht.
  - rewrite (both_of_type_match _ _ _ _ Hd), Ht. simpl. rewrite Ha. simpl.
    destruct (get_prop_object attributes partitionKey) as [pk Hpk].
    destruct (get_prop_object attributes sortKey) as [sk Hsk].
    simpl in Hpk, Hsk. rewrite Hpk. simpl. rewrite Hsk. simpl.
    eexists. split; [reflexivity|].
    intros k. destruct (String.eqb partitionKey sortKey) eqn:E; simpl.
    + apply String.eqb_eq in E. subst. tauto.
    + tauto.
  - rewrite (both_of_type_match _ _ _ _ Hd). simpl. rewrite andb_false_r. simpl.
    rewrite (both_of_type_match _ _ _ _ Hd), Ht. simpl. rewrite Ha. simpl.
    destruct (get_prop_object attributes sortKey) as [sk Hsk].
    simpl in Hsk. rewrite Hsk. simpl.
    eexists. split; [reflexivity|].
    intros k. simpl. tauto.
Qed.

Lemma onlyKeysIndex_exact_signature_keys_witness :
  exists normalized,
    onlyKeysIndex (Some (GSIOptions "GSI1PK" "GSI1SK"))
      (VObj [("attributes",
              VObj [("GSI1PK", VStr "a"); ("GSI1SK", VStr "b");
                    ("extra", VStr "c")]);
             ("metadata", VObj [("_name", VStr "GSI1");
                                ("type", INDEX_TYPE_value GSI)])])
    = Ok (VObj normalized)
    /\ forall k, In k (Obj.keys normalized)
                 <-> In k (signature_keys (GSIOptions "GSI1PK" "GSI1SK")).
Proof.
  apply (onlyKeysIndex_exact_signature_keys
           (GSIOptions "GSI1PK" "GSI1SK")
           (VObj [("attributes",
                   VObj [("GSI1PK", VStr "a"); ("GSI1SK", VStr "b");
                         ("extra", VStr "c")]);
                  ("metadata", VObj [("_name", VStr "GSI1");
                                     ("type", INDEX_TYPE_value GSI)])])
           (INDEX_TYPE_value GSI)
           [("GSI1PK", VStr "a"); ("GSI1SK", VStr "b"); ("extra", VStr "c")]);
    reflexivity.
Defined.

(** C5, as stated, fails: for an index declared as a GSI whose name the
    table does not know, the normaliser reads the type of a signature
    that is [undefined] and throws [TypeError]. *)
Lemma onlyKeysIndex_missing_signature_throws :
  let index :=
    VObj [("attributes", VObj [("GSI1PK", VStr "a")]);
          ("metadata", VObj [("_name", VStr "GSI1");
                             ("type", INDEX_TYPE_value GSI)])] in
  let users := {| name := "users"; indexes := [] |} in
  getIndexByKey users (VStr "GSI1") = None
  /\ onlyKeysIndex None index = Error TypeError
  /\ normalizedIndexes users [("GSI1", index)] = Error TypeError.
Proof. simpl. repeat split; reflexivity. Qed.

(** C5, amended: an index whose table signature is present with a type
    other than the index's declared type, or whose signature is missing
    while its declared type is neither GSI nor LSI, passes through the
    normaliser unchanged and no exception is raised. *)
Theorem onlyKeysIndex_mismatch_passes_through
  (tableIndexSignature : option IndexOptions) (index declared : value) :
  declared_type index = Ok declared ->
  match tableIndexSignature with
  | Some sig => is_index_type declared (IndexOptions_type sig) = false
  | None => is_index_type declared GSI = false
            /\ is_index_type declared LSI = false
  end ->
  onlyKeysIndex tableIndexSignature index = Ok index.
Proof.
  intros Hd Hm. unfold onlyKeysIndex.
  destruct tableIndexSignature as [[partitionKey sortKey | sortKey]|];
    simpl in Hm.
  - rewrite (both_of_type_match _ _ _ _ Hd), Hm. simpl.
    rewrite (both_of_type_match _ _ _ _ Hd). simpl.
    now rewrite andb_false_r.
  - rewrite (both_of_type_match _ _ _ _ Hd). simpl. rewrite andb_false_r.
    simpl. now rewrite (both_of_type_match _ _ _ _ Hd), Hm.
  - destruct Hm as [Hg Hl]. unfold both_of_type. rewrite Hd. simpl.
    rewrite Hg. simpl. now rewrite Hl.
Qed.

Lemma onlyKeysIndex_mismatch_passes_through_witness :
  onlyKeysIndex (Some (LSIOptions "LSI1SK"))
    (VObj [("attributes", VObj [("GSI1PK", VStr "a")]);
           ("metadata", VObj [("_name", VStr "GSI1");
                              ("type", INDEX_TYPE_value GSI)])])
  = Ok (VObj [("attributes", VObj [("GSI1PK", VStr "a")]);
              ("metadata", VObj [("_name", VStr "GSI1");
                                 ("type", INDEX_TYPE_value GSI)])]).
Proof.
  apply (onlyKeysIndex_mismatch_passes_through
           (Some (LSIOptions "LSI1SK"))
           (VObj [("attributes", VObj [("GSI1PK", VStr "a")]);
                  ("metadata", VObj [("_name", VStr "GSI1");
                                     ("type", INDEX_TYPE_value GSI)])])
           (INDEX_TYPE_value GSI));
    reflexivity.
Defined.

(** ** The affected-index calculator *)

Lemma interpolation_step_error currIndex attributes attrKey e kv :
  interpolation_step currIndex attributes attrKey (Error e) kv = Error e.
Proof. reflexivity. Qed.

Lemma index_step_error attributes attrKey e kv :
  index_step attributes attrKey (Error e) kv = Error e.
Proof. reflexivity. Qed.

Lemma attribute_step_error sep indexes attributes e kv :
  attribute_step sep indexes attributes (Error e) kv = Error e.
Proof. reflexivity. Qed.

(** C7: when every key of the changed-attribute map contains the nested
    key separator or maps to a value that is not scalar, the calculator
    returns the empty map. *)
Theorem getAffectedIndexes_nested_or_nonscalar_empty
  (connection : Connection) (entityClass : EntityTarget) (attributes : obj)
  (options : option string) :
  (forall attrKey currAttrValue, In (attrKey, currAttrValue) attributes ->
     str_includes attrKey (separator_of options) = true
     \/ isScalarType currAttrValue = false) ->
  getAffectedIndexesForAttributes connection entityClass attributes options
  = Ok [].
Proof.
  intros Hskip. unfold getAffectedIndexesForAttributes.
  generalize (declared_indexes connection entityClass) as indexes.
  intros indexes. generalize attributes at 1 as dict. intros dict.
  induction attributes as [|[attrKey currAttrValue] rest IH]; simpl; auto.
  assert (Hhead : str_includes attrKey (separator_of options)
                  || negb (isScalarType currAttrValue) = true).
  { destruct (Hskip attrKey currAttrValue) as [H | H];
      [now left | rewrite H | rewrite H]; auto using orb_true_r. }
  rewrite Hhead. apply IH. intros k v Hin. apply Hskip. now right.
Qed.

Lemma getAffectedIndexes_nested_or_nonscalar_empty_witness :
  getAffectedIndexesForAttributes
    {| getEntityByTarget := fun _ =>
         {| table := {| name := "users"; indexes := [] |};
            schema :=
              [("indexes",
                VObj [("GSI1",
                       VObj [("attributes",
                              VObj [("GSI1PK", VStr "CITY#{address.city}")]);
                             ("metadata",
                              VObj [("_interpolations",
                                     VObj [("GSI1PK",
                                            VArr [VStr "address.city"])])])])])] |};
       getAttributesForEntity := fun _ => [] |}
    "User"
    [("address.city", VStr "Oslo"); ("tags", VArr [VStr "a"])]
    None
  = Ok [].
Proof.
  apply getAffectedIndexes_nested_or_nonscalar_empty.
  intros attrKey currAttrValue [H | [H | []]]; inversion H; subst.
  - left. reflexivity.
  - right. reflexivity.
Defined.

(** C6, as stated, fails: the template of [GSI1PK] refers to [id] and
    [status]; a change set with [status] alone matches the interpolation
    list and the template is resolved against the change set, in which
    [id] is not found: [MissingAttributeError] leaves the calculator. *)
Lemma getAffectedIndexes_throws_on_unresolved :
  let index :=
    VObj [("attributes", VObj [("GSI1PK", VStr "USER#{id}#STATUS#{status}")]);
          ("metadata",
           VObj [("_name", VStr "GSI1");
                 ("type", INDEX_TYPE_value GSI);
                 ("_interpolations",
                  VObj [("GSI1PK", VArr [VStr "id"; VStr "status"])])])] in
  let connection :=
    {| getEntityByTarget := fun _ =>
         {| table := {| name := "users";
                        indexes := [("GSI1", GSIOptions "GSI1PK" "GSI1SK")] |};
            schema := [("indexes", VObj [("GSI1", index)])] |};
       getAttributesForEntity := fun _ => [] |} in
  getAffectedIndexesForAttributes connection "User"
    [("status", VStr "active")] None
  = Error MissingAttributeError.
Proof. reflexivity. Qed.

Lemma includes_name_list (v : value) (attrKey : string) (k : string) :
  is_name_list v = true -> includes v attrKey = Ok (hits attrKey (k, v)).
Proof. unfold hits. destruct v; simpl; try discriminate; reflexivity. Qed.

Lemma interpolations_no_hit currIndex attributes attrKey entries :
  forallb (fun kv => is_name_list (snd kv)) entries = true ->
  existsb (hits attrKey) entries = false ->
  forall acc,
    fold_left (interpolation_step currIndex attributes attrKey) entries acc
    = acc.
Proof.
  induction entries as [|[k v] rest IH]; simpl; auto.
  rewrite andb_true_iff, orb_false_iff. intros [Hv Hrest] [Hhit Hno] acc.
  rewrite IH by assumption. destruct acc as [acc|e]; auto.
  simpl. rewrite (includes_name_list v attrKey k Hv), Hhit. reflexivity.
Qed.

Lemma index_step_no_reference attributes attrKey kv :
  index_ok (snd kv) = true ->
  index_references attrKey (snd kv) = false ->
  forall acc, index_step attributes attrKey acc kv = acc.
Proof.
  unfold index_ok, index_references, interpolations_of, index_step.
  intros Hok Href [acc|e]; auto. simpl.
  destruct (get_prop (snd kv) "metadata") as [metadata|]; [|discriminate].
  simpl in *.
  destruct (get_prop metadata "_interpolations") as [declared|];
    [|discriminate].
  simpl in *.
  destruct (isEmptyObject (nullish_or declared (VObj []))); auto.
  now apply interpolations_no_hit.
Qed.

Lemma indexes_no_reference attributes attrKey entries :
  forallb (fun kv => index_ok (snd kv)) entries = true ->
  existsb (fun kv => index_references attrKey (snd kv)) entries = false ->
  forall acc, fold_left (index_step attributes attrKey) entries acc = acc.
Proof.
  induction entries as [|kv rest IH]; simpl; auto.
  rewrite andb_true_iff, orb_false_iff. intros [Hok Hrest] [Href Hno] acc.
  rewrite IH by assumption. now apply index_step_no_reference.
Qed.

(** A changed attribute that no interpolation entry references leaves the
    accumulator as it is, and nothing is thrown on its account. *)
Lemma attribute_step_no_reference sep indexes attributes kv :
  indexes_ok indexes = true ->
  referenced_by_index indexes (fst kv) = false ->
  forall acc, attribute_step sep indexes attributes acc kv = acc.
Proof.
  intros Hok Href [acc|e]; auto. destruct kv as [attrKey currAttrValue].
  simpl in *.
  destruct (str_includes attrKey sep || negb (isScalarType currAttrValue)); auto.
  destruct (negb (truthy indexes)); auto.
  now apply indexes_no_reference.
Qed.

(** C6, amended: over well-typed index metadata, a changed attribute that
    matches no index interpolation contributes nothing and raises
    nothing: the calculator's result is the one obtained by visiting only
    the changed attributes that some interpolation entry references, the
    templates still being resolved against the whole change set. *)
Theorem getAffectedIndexes_unmatched_no_effect
  (connection : Connection) (entityClass : EntityTarget) (attributes : obj)
  (options : option string) :
  indexes_ok (declared_indexes connection entityClass) = true ->
  getAffectedIndexesForAttributes connection entityClass attributes options
  = fold_left
      (attribute_step (separator_of options)
         (declared_indexes connection entityClass) attributes)
      (filter (fun kv => referenced_by_index
                           (declared_indexes connection entityClass) (fst kv))
         attributes)
      (Ok []).
Proof.
  intros Hok. unfold getAffectedIndexesForAttributes.
  generalize (Ok (@nil (string * value))) as acc.
  generalize attributes at 1 3 as dict. intros dict.
  induction attributes as [|kv rest IH]; intros acc; simpl; auto.
  destruct (referenced_by_index (declared_indexes connection entityClass)
              (fst kv)) eqn:Href; simpl.
  - apply IH.
  - rewrite (attribute_step_no_reference _ _ _ _ Hok Href). apply IH.
Qed.

Lemma getAffectedIndexes_unmatched_no_effect_witness :
  getAffectedIndexesForAttributes
    {| getEntityByTarget := fun _ =>
         {| table := {| name := "users"; indexes := [] |};
            schema :=
              [("indexes",
                VObj [("GSI1",
                       VObj [("attributes",
                              VObj [("GSI1PK", VStr "STATUS#{status}")]);
                             ("metadata",
                              VObj [("_interpolations",
                                     VObj [("GSI1PK",
                                            VArr [VStr "status"])])])])])] |};
       getAttributesForEntity := fun _ => [] |}
    "User"
    [("name", VStr "Ada"); ("status", VStr "active")]
    None
  = Ok [("GSI1PK", VStr "STATUS#active")].
Proof.
  rewrite getAffectedIndexes_unmatched_no_effect; reflexivity.
Defined.

(** ** The transform only allocates *)


Lemma allocates_only_mret {A : Type} (a : A) : allocates_only (mret a).
Proof. intros st. exists []. simpl. now rewrite app_nil_r. Qed.

Lemma allocates_only_lift {A : Type} (r : result A) : allocates_only (lift r).
Proof. intros st. exists []. simpl. now rewrite app_nil_r. Qed.

Lemma allocates_only_read (l : loc) : allocates_only (read l).
Proof. intros st. exists []. simpl. now rewrite app_nil_r. Qed.

Lemma allocates_only_constructor (l : loc) :
  allocates_only (getConstructorForInstance l).
Proof. intros st. exists []. simpl. now rewrite app_nil_r. Qed.

Lemma allocates_only_alloc (o : obj) : allocates_only (alloc o).
Proof. intros st. eexists. reflexivity. Qed.

(** [Object.assign(target)] without sources writes nothing. *)
Lemma allocates_only_assign_no_source (target : loc) :
  allocates_only (Object_assign target []).
Proof. intros st. exists []. simpl. now rewrite app_nil_r. Qed.

(** With a source it does write into its target: merging the generated
    values with [Object.assign(entity, ...)] would have changed the
    caller's object. *)
Lemma Object_assign_writes_target :
  let st := [{| constructor := "User"; props := [("id", VStr "42")] |}] in
  snd (Object_assign 0 [[("id", VStr "generated")]] st)
  = [{| constructor := "User"; props := [("id", VStr "generated")] |}].
Proof. reflexivity. Qed.

Lemma allocates_only_mbind {A B : Type} (m : M A) (k : A -> M B) :
  allocates_only m -> (forall a, allocates_only (k a)) ->
  allocates_only (mbind m k).
Proof.
  intros Hm Hk st. unfold mbind.
  destruct (Hm st) as [fresh1 H1].
  destruct (m st) as [[a|e] st1]; simpl in H1; subst st1.
  - destruct (Hk a (st ++ fresh1)) as [fresh2 H2].
    exists (fresh1 ++ fresh2). now rewrite H2, app_assoc.
  - now exists fresh1.
Qed.

Create HintDb frame.

#[local] Hint Resolve allocates_only_mret allocates_only_lift
  allocates_only_read allocates_only_constructor allocates_only_alloc
  allocates_only_assign_no_source : frame.

Ltac frame_step :=
  repeat (apply allocates_only_mbind; [|intros ?]); auto with frame.

Lemma allocates_only_populate (attrs : list AttributeMetadata) :
  forall entity, allocates_only (populate_generated attrs entity).
Proof.
  induction attrs as [|[attr_name | attr_name attr_value] rest IH];
    intros entity; simpl; auto with frame.
  frame_step.
Qed.

Lemma allocates_only_toDynamoEntity (connection : Connection) (entity : loc) :
  allocates_only (toDynamoEntity connection entity).
Proof.
  unfold toDynamoEntity. frame_step. apply allocates_only_populate.
Qed.

(** C8: [toDynamoEntity] leaves the caller's entity object as it was:
    whatever the outcome, the object the entity reference points to has
    the same constructor and the same properties afterwards. *)
Theorem toDynamoEntity_preserves_entity
  (connection : Connection) (entity : loc) (st : store) :
  entity < length st ->
  deref (snd (toDynamoEntity connection entity st)) entity = deref st entity.
Proof.
  intros Hvalid.
  destruct (allocates_only_toDynamoEntity connection entity st) as [fresh H].
  rewrite H. unfold deref. now apply app_nth1.
Qed.

Lemma toDynamoEntity_preserves_entity_witness :
  let connection :=
    {| getEntityByTarget := fun _ =>
         {| table := {| name := "users"; indexes := [] |};
            schema :=
              [("primaryKey",
                VObj [("attributes", VObj [("PK", VStr "USER#{id}")])])] |};
       getAttributesForEntity := fun _ =>
         [PlainAttribute "id"; AutoGeneratedAttribute "id" (VStr "generated")] |} in
  let st := [{| constructor := "User"; props := [("id", VStr "42")] |}] in
  deref (snd (toDynamoEntity connection 0 st)) 0
  = {| constructor := "User"; props := [("id", VStr "42")] |}.
Proof.
  simpl.
  apply (toDynamoEntity_preserves_entity
           {| getEntityByTarget := fun _ =>
                {| table := {| name := "users"; indexes := [] |};
                   schema :=
                     [("primaryKey",
                       VObj [("attributes", VObj [("PK", VStr "USER#{id}")])])] |};
              getAttributesForEntity := fun _ =>
                [PlainAttribute "id";
                 AutoGeneratedAttribute "id" (VStr "generated")] |}
           0 [{| constructor := "User"; props := [("id", VStr "42")] |}]).
  simpl. lia.
Defined.

(** * Further properties of the transformer *)

(** ** More on property lists *)

Module ObjAssign.

Lemma in_set (o : obj) (k : string) (v : value) (kv : string * value) :
  In kv (Obj.set o k v) -> kv = (k, v) \/ In kv o.
Proof.
  induction o as [|[k' v'] rest IH]; simpl.
  - intros [H | []]. now left.
  - destruct (String.eqb k' k) eqn:E; simpl.
    + apply String.eqb_eq in E. subst k'. intros [H | H]; auto.
    + intros [H | H]; auto. destruct (IH H); auto.
Qed.

Lemma keys_set_eq (o : obj) (k : string) (v : value) :
  Obj.keys (Obj.set o k v)
  = if Obj.has o k then Obj.keys o else Obj.keys o ++ [k].
Proof.
  unfold Obj.has, Obj.keys. induction o as [|[k' v'] rest IH]; simpl; auto.
  destruct (String.eqb k' k) eqn:E; simpl; auto.
  rewrite IH. now destruct (Obj.get rest k).
Qed.

Lemma set_wf (o : obj) (k : string) (v : value) :
  Obj.wf o = true -> Obj.wf (Obj.set o k v) = true.
Proof.
  unfold Obj.wf. rewrite keys_set_eq. unfold Obj.has.
  destruct (Obj.get o k) eqn:E; auto.
  rewrite !ObjFacts.nodup_keys_NoDup. intros Hnd.
  apply ObjFacts.get_none_not_in in E.
  apply NoDup_rev in Hnd. rewrite <- (rev_involutive (Obj.keys o ++ [k])).
  apply NoDup_rev. rewrite rev_app_distr. simpl. constructor; auto.
  now rewrite <- in_rev.
Qed.

Lemma assign_wf (a b : obj) :
  Obj.wf a = true -> Obj.wf (Obj.assign a b) = true.
Proof.
  unfold Obj.assign. revert a.
  induction b as [|[k v] rest IH]; simpl; auto.
  intros a Hwf. apply IH. now apply set_wf.
Qed.

Lemma spread_wf (v : value) : Obj.wf (spread v) = true.
Proof. apply assign_wf. reflexivity. Qed.

Lemma get_app_last (o : obj) (k0 : string) (v0 : value) (k : string) :
  Obj.get (o ++ [(k0, v0)]) k
  = match Obj.get o k with
    | Some v => Some v
    | None => if String.eqb k0 k then Some v0 else None
    end.
Proof.
  induction o as [|[k' v'] rest IH]; simpl; auto.
  now destruct (String.eqb k' k).
Qed.

(** [{...a, ...b}] read at [k]: the last binding of [k] in [b], else what
    [a] has. *)
Lemma get_assign_rev (a b : obj) (k : string) :
  Obj.get (Obj.assign a b) k
  = match Obj.get (rev b) k with
    | Some v => Some v
    | None => Obj.get a k
    end.
Proof.
  unfold Obj.assign. revert a.
  induction b as [|[k0 v0] rest IH]; intros a; simpl; auto.
  rewrite IH, get_app_last.
  destruct (Obj.get (rev rest) k); auto.
  destruct (String.eqb k0 k) eqn:E.
  - apply String.eqb_eq in E. subst. apply ObjFacts.get_set_same.
  - apply String.eqb_neq in E. apply ObjFacts.get_set_other. congruence.
Qed.

Lemma wf_rev (o : obj) : Obj.wf o = true -> Obj.wf (rev o) = true.
Proof.
  unfold Obj.wf, Obj.keys. rewrite map_rev, !ObjFacts.nodup_keys_NoDup.
  apply NoDup_rev.
Qed.

Lemma get_rev_wf (o : obj) (k : string) :
  Obj.wf o = true -> Obj.get (rev o) k = Obj.get o k.
Proof.
  intros Hwf. destruct (Obj.get o k) as [v|] eqn:E.
  - apply ObjFacts.get_in_wf; [now apply wf_rev|].
    apply in_rev. rewrite rev_involutive. now apply ObjFacts.get_in.
  - apply ObjFacts.get_none_not_in. apply ObjFacts.get_none_not_in in E.
    unfold Obj.keys in *. rewrite map_rev, <- in_rev. exact E.
Qed.

Lemma get_assign_wf (a b : obj) (k : string) :
  Obj.wf b = true ->
  Obj.get (Obj.assign a b) k
  = match Obj.get b k with
    | Some v => Some v
    | None => Obj.get a k
    end.
Proof. intros Hwf. now rewrite get_assign_rev, get_rev_wf. Qed.

Lemma get_spread_wf (o : obj) (k : string) :
  Obj.wf o = true -> Obj.get (spread (VObj o)) k = Obj.get o k.
Proof.
  intros Hwf. unfold spread. simpl. rewrite get_assign_wf by assumption.
  now destruct (Obj.get o k).
Qed.

End ObjAssign.

(** ** Invariants of a [reduce] that may throw *)

Lemma fold_result_invariant {A : Type} (step : result obj -> A -> result obj)
  (Inv : obj -> Prop) (l : list A) :
  (forall e x, step (Error e) x = Error e) ->
  (forall acc x acc', In x l -> Inv acc -> step (Ok acc) x = Ok acc' ->
                      Inv acc') ->
  forall acc r, Inv acc -> fold_left step l (Ok acc) = Ok r -> Inv r.
Proof.
  intros Habsorb. induction l as [|x rest IH]; simpl; intros Hstep acc r Hacc Hr.
  - inversion Hr; subst; auto.
  - destruct (step (Ok acc) x) as [acc'|e] eqn:Es.
    + apply (IH (fun a y a' Hin => Hstep a y a' (or_intror Hin)) acc' r); auto.
      apply (Hstep acc x acc'); auto.
    + rewrite fold_error in Hr by assumption. discriminate.
Qed.

(** If the turn for [x] establishes [Q] and every later turn keeps it,
    the result has [Q]. *)
Lemma fold_result_reaches {A : Type} (step : result obj -> A -> result obj)
  (Q : obj -> Prop) (l : list A) (x : A) :
  (forall e y, step (Error e) y = Error e) ->
  In x l ->
  (forall acc acc', step (Ok acc) x = Ok acc' -> Q acc') ->
  (forall acc y acc', Q acc -> step (Ok acc) y = Ok acc' -> Q acc') ->
  forall acc r, fold_left step l (Ok acc) = Ok r -> Q r.
Proof.
  intros Habsorb Hin Hset Hkeep.
  induction l as [|y rest IH]; simpl; intros acc r Hr; [contradiction|].
  destruct (step (Ok acc) y) as [acc'|e] eqn:Es.
  - destruct Hin as [-> | Hin].
    + apply (fold_result_invariant step Q rest Habsorb
               (fun a z a' _ => Hkeep a z a') acc' r); auto.
      eapply Hset; eauto.
    + eapply IH; eauto.
  - rewrite fold_error in Hr by assumption. discriminate.
Qed.

(** ** The walker: keys, failures and the sparse flag *)

Lemma walk_step_ok_cases nested entity isSparse acc key currentValue acc' :
  walk_step nested entity isSparse (Ok acc) (key, currentValue) = Ok acc' ->
  (isObject currentValue = true
   /\ exists sub, nested currentValue = Ok sub
                  /\ acc' = Obj.set acc key (VObj sub))
  \/ (isObject currentValue = false
      /\ exists resolved, parseKey currentValue entity isSparse = Ok resolved
           /\ acc' = if truthy resolved then Obj.set acc key resolved else acc).
Proof.
  simpl. destruct (isObject currentValue).
  - destruct (nested currentValue) as [sub|e]; simpl; [|discriminate].
    intros H. inversion H. left. eauto.
  - destruct (parseKey currentValue entity isSparse) as [v|e]; simpl;
      [|discriminate].
    intros H. right. split; auto. exists v. split; auto.
    destruct (truthy v); now inversion H.
Qed.

(** The walker never binds a name the schema does not declare. *)
Theorem recursiveParseEntity_keys_declared
  (entity_schema entity : obj) (isSparse : bool) (r : obj) (key : string) :
  recursiveParseEntity entity_schema entity isSparse = Ok r ->
  In key (Obj.keys r) ->
  In key (Obj.keys entity_schema).
Proof.
  intros Hr Hin.
  destruct (in_dec string_dec key (Obj.keys entity_schema)) as [H | H]; auto.
  pose proof (walk_fold_untouched _ _ _ _ _ _ Hr H) as Hget.
  simpl in Hget. apply ObjFacts.get_none_not_in in Hget. contradiction.
Qed.

Lemma recursiveParseEntity_keys_declared_witness :
  In "PK" (Obj.keys [("PK", VStr "USER#{id}"); ("SK", VStr "{sk}")]).
Proof.
  apply (recursiveParseEntity_keys_declared
           [("PK", VStr "USER#{id}"); ("SK", VStr "{sk}")]
           [("id", VStr "42"); ("sk", VStr "")] false
           [("PK", VStr "USER#42")] "PK").
  - reflexivity.
  - simpl. left. reflexivity.
Defined.

Lemma walk_fold_error_source entity isSparse entity_schema l :
  (forall kv, In kv l -> In kv entity_schema) ->
  Forall (fun kv => forall e,
            parse_nested entity (snd kv) = Error e ->
            exists leaf context,
              leaf_of (own_entries (snd kv)) (own_isSparse (snd kv))
                leaf context
              /\ parseKey leaf entity context = Error e) l ->
  forall acc e,
    fold_left (walk_step (parse_nested entity) entity isSparse) l (Ok acc)
    = Error e ->
    exists leaf context,
      leaf_of entity_schema isSparse leaf context
      /\ parseKey leaf entity context = Error e.
Proof.
  intros Hsub Hall. induction Hall as [|[key cv] rest Hhead _ IH];
    simpl; intros acc e Hr; [discriminate|].
  assert (Hin : In (key, cv) entity_schema) by (apply Hsub; now left).
  assert (Hsub' : forall kv, In kv rest -> In kv entity_schema)
    by (intros kv H; apply Hsub; now right).
  destruct (isObject cv) eqn:Eo.
  - destruct (parse_nested entity cv) as [sub|e'] eqn:En; simpl in Hr.
    + eapply IH; eauto.
    + rewrite walk_fold_error in Hr. inversion Hr; subst e'.
      destruct cv; try discriminate.
      destruct (Hhead e En) as [leaf [context [Hleaf Hp]]].
      exists leaf, context. split; auto.
      eapply leaf_below; eauto.
  - destruct (parseKey cv entity isSparse) as [v|e'] eqn:Ep; simpl in Hr.
    + destruct (truthy v); eapply IH; eauto.
    + rewrite walk_fold_error in Hr. inversion Hr; subst e'.
      exists cv, isSparse. split; auto. eapply leaf_here; eauto.
Qed.

Lemma parse_nested_error_source entity v :
  forall e, parse_nested entity v = Error e ->
    exists leaf context,
      leaf_of (own_entries v) (own_isSparse v) leaf context
      /\ parseKey leaf entity context = Error e.
Proof.
  induction v as [| | | | | |fields IH] using value_tree_ind;
    try (simpl; discriminate).
  intros e. simpl parse_nested.
  apply (walk_fold_error_source entity _ fields fields); auto.
Qed.

(** Past [Object.keys], an exception of the walker was thrown by
    [parseKey] on a leaf of the schema, in the sparse context of the
    object holding that leaf. *)
Lemma walk_error_source
  (entity_schema entity : obj) (isSparse : bool) (e : error) :
  recursiveParseEntity entity_schema entity isSparse = Error e ->
  exists leaf context,
    leaf_of entity_schema isSparse leaf context
    /\ parseKey leaf entity context = Error e.
Proof.
  unfold recursiveParseEntity.
  apply (walk_fold_error_source entity isSparse entity_schema entity_schema);
    auto.
  apply Forall_forall. intros kv _. apply parse_nested_error_source.
Qed.

(** An exception that leaves [recursiveParseEntity] is either the
    [TypeError] of [Object.keys] on a schema that is [undefined] or
    [null], or one thrown by [parseKey] on a leaf of the schema, in the
    sparse context of the object holding that leaf. *)
Theorem recursiveParseEntity_any_error_source
  (schema : value) (entity : obj) (isSparse : bool) (e : error) :
  recursiveParseEntity_any schema entity isSparse = Error e ->
  (e = TypeError /\ (schema = VUndefined \/ schema = VNull))
  \/ exists leaf context,
       leaf_of (own_entries schema) isSparse leaf context
       /\ parseKey leaf entity context = Error e.
Proof.
  unfold recursiveParseEntity_any.
  destruct schema; simpl;
    try (intros H; right; now apply walk_error_source in H).
  - intros H. inversion H. left. auto.
  - intros H. inversion H. left. auto.
Qed.

Lemma recursiveParseEntity_any_error_source_witness :
  (TypeError = TypeError /\ (VUndefined = VUndefined \/ VUndefined = VNull))
  \/ exists leaf context,
       leaf_of (own_entries VUndefined) false leaf context
       /\ parseKey leaf [("id", VStr "42")] context = Error TypeError.
Proof.
  apply (recursiveParseEntity_any_error_source
           VUndefined [("id", VStr "42")] false TypeError).
  reflexivity.
Defined.

Lemma walk_fold_ok_entry entity isSparse l :
  forall acc r,
    fold_left (walk_step (parse_nested entity) entity isSparse) l (Ok acc)
    = Ok r ->
    forall key currentValue, In (key, currentValue) l ->
      if isObject currentValue
      then exists sub, parse_nested entity currentValue = Ok sub
      else exists resolved, parseKey currentValue entity isSparse = Ok resolved.
Proof.
  induction l as [|[k cv] rest IH]; simpl; intros acc r Hr key currentValue Hin;
    [contradiction|].
  destruct (isObject cv) eqn:Eo.
  - destruct (parse_nested entity cv) as [sub|e] eqn:En; simpl in Hr;
      [|now rewrite walk_fold_error in Hr].
    destruct Hin as [H | Hin]; [|eapply IH; eauto].
    inversion H; subst. rewrite Eo. eauto.
  - destruct (parseKey cv entity isSparse) as [v|e] eqn:Ep; simpl in Hr;
      [|now rewrite walk_fold_error in Hr].
    destruct Hin as [H | Hin].
    + inversion H; subst. rewrite Eo. eauto.
    + destruct (truthy v); eapply IH; eauto.
Qed.

(** Past [Object.keys], the walker returns a result exactly when every
    leaf of the schema tree resolves in the sparse context of the object
    that holds it. *)
Lemma walk_succeeds_iff_leaves_resolve
  (entity_schema entity : obj) (isSparse : bool) :
  (exists r, recursiveParseEntity entity_schema entity isSparse = Ok r)
  <-> (forall leaf context,
         leaf_of entity_schema isSparse leaf context ->
         exists resolved, parseKey leaf entity context = Ok resolved).
Proof.
  split.
  - intros [r Hr] leaf context Hleaf. revert r Hr.
    induction Hleaf as [s sp key leaf Hin Hobj
                       | s sp key fields leaf context Hin Hleaf IH];
      intros r Hr.
    + pose proof (walk_fold_ok_entry _ _ _ _ _ Hr _ _ Hin) as H.
      now rewrite Hobj in H.
    + pose proof (walk_fold_ok_entry _ _ _ _ _ Hr _ _ Hin) as H.
      simpl isObject in H. destruct H as [sub Hsub].
      rewrite parse_nested_eq in Hsub. eapply IH; eauto.
  - intros Hall.
    destruct (recursiveParseEntity entity_schema entity isSparse) as [r|e] eqn:E;
      eauto.
    unfold recursiveParseEntity in E.
    apply (walk_fold_error_source entity isSparse entity_schema entity_schema)
      in E; auto.
    + destruct E as [leaf [context [Hleaf Hp]]].
      destruct (Hall _ _ Hleaf) as [v Hv]. congruence.
    + apply Forall_forall. intros kv _. apply parse_nested_error_source.
Qed.

(** [recursiveParseEntity] returns a result exactly when its schema is
    neither [undefined] nor [null] and every leaf of the schema tree
    resolves in the sparse context of the object that holds it. *)
Theorem recursiveParseEntity_any_succeeds_iff
  (schema : value) (entity : obj) (isSparse : bool) :
  (exists r, recursiveParseEntity_any schema entity isSparse = Ok r)
  <-> (schema <> VUndefined
       /\ schema <> VNull
       /\ forall leaf context,
            leaf_of (own_entries schema) isSparse leaf context ->
            exists resolved, parseKey leaf entity context = Ok resolved).
Proof.
  unfold recursiveParseEntity_any. split.
  - intros [r Hr].
    destruct schema; simpl in Hr; try discriminate;
      (repeat split; try discriminate;
       apply walk_succeeds_iff_leaves_resolve; eauto).
  - intros [Hu [Hn Hall]].
    destruct schema; try congruence; simpl;
      apply walk_succeeds_iff_leaves_resolve; exact Hall.
Qed.

(** [getParsedPrimaryKey] hands [primaryKey.attributes] to that walker. *)
Lemma getParsedPrimaryKey_walks_attributes table primaryKey attributes :
  getParsedPrimaryKey table primaryKey attributes
  = (declared <- get_prop primaryKey "attributes" ;;
     recursiveParseEntity_any declared attributes false).
Proof. reflexivity. Qed.

Lemma walk_fold_flag_irrelevant entity s1 s2 l :
  (forall kv, In kv l -> isObject (snd kv) = true) ->
  forall acc,
    fold_left (walk_step (parse_nested entity) entity s1) l acc
    = fold_left (walk_step (parse_nested entity) entity s2) l acc.
Proof.
  induction l as [|[key cv] rest IH]; simpl; intros Hall acc; auto.
  assert (Hobj : isObject cv = true) by (apply (Hall (key, cv)); now left).
  rewrite IH by (intros kv H; apply Hall; now right).
  f_equal. destruct acc as [acc|e]; simpl; auto. now rewrite Hobj.
Qed.

(** The [isSparse] argument reaches the direct leaves only: on a schema
    whose entries are all nested objects the result does not depend on
    it, each nested object being walked under its own flag. *)
Theorem recursiveParseEntity_flag_not_inherited
  (entity_schema entity : obj) (s1 s2 : bool) :
  (forall kv, In kv entity_schema -> isObject (snd kv) = true) ->
  recursiveParseEntity entity_schema entity s1
  = recursiveParseEntity entity_schema entity s2.
Proof. intros Hall. now apply walk_fold_flag_irrelevant. Qed.

Lemma recursiveParseEntity_flag_not_inherited_witness :
  recursiveParseEntity
    [("attributes", VObj [("GSI1PK", VStr "EMAIL#{email}")])]
    [("id", VStr "42")] true
  = recursiveParseEntity
      [("attributes", VObj [("GSI1PK", VStr "EMAIL#{email}")])]
      [("id", VStr "42")] false.
Proof.
  apply (recursiveParseEntity_flag_not_inherited
           [("attributes", VObj [("GSI1PK", VStr "EMAIL#{email}")])]
           [("id", VStr "42")] true false).
  intros kv [H | []]. subst kv. reflexivity.
Defined.

(** ** The primary key inside the transform *)

(** When the walk of the whole entity schema succeeds and the primary
    key's attribute map is not flagged sparse, the second resolution made
    by [getParsedPrimaryKey] succeeds too and returns what the walk
    already holds under [primaryKey.attributes]. *)
Theorem getParsedPrimaryKey_agrees_with_walk
  (table : Table) (entity_schema primaryKey declared entity parsed : obj) :
  Obj.wf entity_schema = true ->
  Obj.wf primaryKey = true ->
  Obj.get entity_schema "primaryKey" = Some (VObj primaryKey) ->
  Obj.get primaryKey "attributes" = Some (VObj declared) ->
  own_isSparse (VObj declared) = false ->
  recursiveParseEntity entity_schema entity false = Ok parsed ->
  exists resolved walked,
    getParsedPrimaryKey table (VObj primaryKey) entity = Ok resolved
    /\ Obj.get parsed "primaryKey" = Some (VObj walked)
    /\ Obj.get walked "attributes" = Some (VObj resolved).
Proof.
  intros Hwf Hwfpk Hpk Hattrs Hflag Hr.
  pose proof (walk_entries _ _ _ _ Hwf Hr _ (ObjFacts.get_in _ _ _ Hpk)) as H1.
  unfold entry_outcome in H1. simpl isObject in H1.
  destruct H1 as [walked [Hwalked Hget]].
  rewrite parse_nested_eq in Hwalked.
  pose proof (walk_entries _ _ _ _ Hwfpk Hwalked _
                (ObjFacts.get_in _ _ _ Hattrs)) as H2.
  unfold entry_outcome in H2. simpl isObject in H2.
  destruct H2 as [resolved [Hres Hget2]].
  rewrite parse_nested_eq, Hflag in Hres.
  exists resolved, walked. repeat split; auto.
  unfold getParsedPrimaryKey. simpl. rewrite Hattrs. simpl. exact Hres.
Qed.

Lemma getParsedPrimaryKey_agrees_with_walk_witness :
  exists resolved walked,
    getParsedPrimaryKey {| name := "users"; indexes := [] |}
      (VObj [("attributes", VObj [("PK", VStr "USER#{id}")])])
      [("id", VStr "42")]
    = Ok resolved
    /\ Obj.get [("primaryKey",
                 VObj [("attributes", VObj [("PK", VStr "USER#42")])])]
         "primaryKey" = Some (VObj walked)
    /\ Obj.get walked "attributes" = Some (VObj resolved).
Proof.
  apply (getParsedPrimaryKey_agrees_with_walk
           {| name := "users"; indexes := [] |}
           [("primaryKey", VObj [("attributes", VObj [("PK", VStr "USER#{id}")])])]
           [("attributes", VObj [("PK", VStr "USER#{id}")])]
           [("PK", VStr "USER#{id}")]
           [("id", VStr "42")]
           [("primaryKey", VObj [("attributes", VObj [("PK", VStr "USER#42")])])]);
    reflexivity.
Defined.

(** ** The transform, run on a store *)

Lemma deref_new (st : store) (i : instance) (fresh : store) :
  deref (st ++ i :: fresh) (length st) = i.
Proof. unfold deref. apply nth_middle. Qed.

Lemma populate_generated_run (attrs : list AttributeMetadata) :
  forall entity st,
    exists l fresh,
      populate_generated attrs entity st = (Ok l, st ++ fresh)
      /\ props (deref (st ++ fresh) l)
         = working_entity attrs (props (deref st entity))
      /\ (forallb is_plain attrs = true -> l = entity /\ fresh = []).
Proof.
  induction attrs as [|[attr_name | attr_name attr_value] rest IH];
    intros entity st.
  - exists entity, []. simpl. rewrite app_nil_r. auto.
  - destruct (IH entity st) as [l [fresh [Hrun [Hprops Hplain]]]].
    exists l, fresh. auto.
  - set (literal := {| constructor := "Object";
                       props := Obj.set (spread (VObj (props (deref st entity))))
                                  attr_name attr_value |}).
    destruct (IH (length st) (st ++ [literal]))
      as [l [fresh [Hrun [Hprops _]]]].
    exists l, (literal :: fresh). repeat split.
    + simpl. unfold mbind, read, alloc, Object_assign. simpl.
      fold literal. rewrite Hrun. now rewrite <- app_assoc.
    + rewrite <- app_assoc in Hprops. simpl in Hprops. rewrite Hprops.
      now rewrite deref_new.
    + simpl in H. discriminate.
    + simpl in H. discriminate.
Qed.

Lemma toDynamoEntity_run (connection : Connection) (entity : loc) (st : store) :
  let entityClass := constructor (deref st entity) in
  let working :=
    working_entity (getAttributesForEntity connection entityClass)
      (props (deref st entity)) in
  exists fresh,
    match storage_attributes connection entityClass working with
    | Ok out =>
        toDynamoEntity connection entity st
        = (Ok (length (st ++ fresh)),
           (st ++ fresh) ++ [{| constructor := "Object"; props := out |}])
    | Error e => toDynamoEntity connection entity st = (Error e, st ++ fresh)
    end.
Proof.
  intros entityClass working.
  destruct (populate_generated_run
              (getAttributesForEntity connection entityClass) entity st)
    as [l [fresh [Hrun [Hprops _]]]].
  exists fresh. fold working in Hprops.
  unfold toDynamoEntity, storage_attributes, mbind, getConstructorForInstance.
  fold entityClass. rewrite Hrun. unfold read, lift, alloc. rewrite Hprops.
  destruct (recursiveParseEntity
              (schema (getEntityByTarget connection entityClass)) working false)
    as [parsedSchema|e]; simpl; auto.
  destruct (Obj.get (schema (getEntityByTarget connection entityClass))
              "primaryKey") as [primaryKey|]; simpl.
  - destruct (getParsedPrimaryKey
                (table (getEntityByTarget connection entityClass))
                primaryKey working) as [npk|e]; simpl; auto.
    destruct (Obj.get parsedSchema "indexes") as [parsedIndexes|]; simpl.
    + destruct (normalizedIndexes
                  (table (getEntityByTarget connection entityClass))
                  (spread parsedIndexes)) as [normalized|e]; simpl; auto.
    + rewrite ?Hprops. reflexivity.
  - reflexivity.
Qed.

(** The reference [toDynamoEntity] returns is to a new plain object, the
    last one allocated: it is never an object the caller already had. *)
Theorem toDynamoEntity_returns_new_object
  (connection : Connection) (entity : loc) (st st' : store) (out : loc) :
  toDynamoEntity connection entity st = (Ok out, st') ->
  length st <= out
  /\ length st' = S out
  /\ constructor (deref st' out) = "Object".
Proof.
  intros Hout.
  destruct (toDynamoEntity_run connection entity st) as [fresh Hrun].
  destruct (storage_attributes connection (constructor (deref st entity))
              (working_entity
                 (getAttributesForEntity connection
                    (constructor (deref st entity)))
                 (props (deref st entity)))) as [o|e];
    rewrite Hrun in Hout; inversion Hout; subst.
  repeat split.
  - rewrite length_app. lia.
  - rewrite !length_app. simpl. lia.
  - now rewrite deref_new.
Qed.

Lemma toDynamoEntity_returns_new_object_witness :
  let connection :=
    {| getEntityByTarget := fun _ =>
         {| table := {| name := "users"; indexes := [] |};
            schema :=
              [("primaryKey",
                VObj [("attributes", VObj [("PK", VStr "USER#{id}")])])] |};
       getAttributesForEntity := fun _ => [] |} in
  let st := [{| constructor := "User"; props := [("id", VStr "42")] |}] in
  let st' := st ++ [{| constructor := "Object";
                       props := [("id", VStr "42"); ("PK", VStr "USER#42")] |}] in
  length st <= 1 /\ length st' = 2 /\ constructor (deref st' 1) = "Object".
Proof.
  intros connection st st'.
  apply (toDynamoEntity_returns_new_object connection 0 st st' 1).
  reflexivity.
Defined.

(** ** Maps the transform builds declare each name once *)

Lemma walk_fold_wf nested entity isSparse l acc r :
  Obj.wf acc = true ->
  fold_left (walk_step nested entity isSparse) l (Ok acc) = Ok r ->
  Obj.wf r = true.
Proof.
  apply (fold_result_invariant (walk_step nested entity isSparse)
           (fun o => Obj.wf o = true) l).
  - intros; apply walk_step_error.
  - intros a [key cv] a' _ Ha Hs.
    apply walk_step_ok_cases in Hs.
    destruct Hs as [[_ [sub [_ ->]]] | [_ [v [_ ->]]]].
    + now apply ObjAssign.set_wf.
    + destruct (truthy v); auto. now apply ObjAssign.set_wf.
Qed.

Lemma recursiveParseEntity_wf entity_schema entity isSparse r :
  recursiveParseEntity entity_schema entity isSparse = Ok r ->
  Obj.wf r = true.
Proof. apply walk_fold_wf. reflexivity. Qed.

Lemma getParsedPrimaryKey_wf table primaryKey attributes r :
  getParsedPrimaryKey table primaryKey attributes = Ok r -> Obj.wf r = true.
Proof.
  unfold getParsedPrimaryKey.
  destruct (get_prop primaryKey "attributes") as [declared|]; simpl;
    [|discriminate].
  destruct (object_keys_entries declared) as [entries|]; simpl;
    [|discriminate].
  apply recursiveParseEntity_wf.
Qed.

Lemma normalize_step_error table e kv :
  normalize_step table (Error e) kv = Error e.
Proof. reflexivity. Qed.

Lemma normalize_step_ok table acc kv acc' :
  normalize_step table (Ok acc) kv = Ok acc' ->
  exists index_name only,
    (metadata <- get_prop (snd kv) "metadata" ;; get_prop metadata "_name")
    = Ok index_name
    /\ onlyKeysIndex (getIndexByKey table (nullish_or index_name (VStr "")))
         (snd kv) = Ok only
    /\ acc' = Obj.assign (spread (VObj acc)) (own_entries only).
Proof.
  unfold normalize_step. simpl.
  destruct (get_prop (snd kv) "metadata") as [metadata|]; simpl;
    [|discriminate].
  destruct (get_prop metadata "_name") as [index_name|]; simpl;
    [|discriminate].
  destruct (onlyKeysIndex
              (getIndexByKey table (nullish_or index_name (VStr "")))
              (snd kv)) as [only|] eqn:E; simpl; [|discriminate].
  intros H. inversion H. exists index_name, only. auto.
Qed.

Lemma normalizedIndexes_wf table indexes r :
  normalizedIndexes table indexes = Ok r -> Obj.wf r = true.
Proof.
  apply (fold_result_invariant (normalize_step table)
           (fun o => Obj.wf o = true) indexes).
  - intros; apply normalize_step_error.
  - intros a kv a' _ _ Hs. apply normalize_step_ok in Hs.
    destruct Hs as [index_name [only [_ [_ ->]]]].
    apply ObjAssign.assign_wf, ObjAssign.spread_wf.
  - reflexivity.
Qed.

(** In the output of [toDynamoEntity] a name is read from the normalised
    indexes first, then from the resolved primary key, then from the
    working entity. *)
Theorem toDynamoEntity_precedence
  (connection : Connection) (entity : loc) (st st' : store) (out : loc) :
  let entityClass := constructor (deref st entity) in
  let metadata := getEntityByTarget connection entityClass in
  let working :=
    working_entity (getAttributesForEntity connection entityClass)
      (props (deref st entity)) in
  toDynamoEntity connection entity st = (Ok out, st') ->
  exists parsedSchema primaryKey normalizedPrimaryKey parsedIndexes normalized,
    recursiveParseEntity (schema metadata) working false = Ok parsedSchema
    /\ get_prop (VObj (schema metadata)) "primaryKey" = Ok primaryKey
    /\ getParsedPrimaryKey (table metadata) primaryKey working
       = Ok normalizedPrimaryKey
    /\ get_prop (VObj parsedSchema) "indexes" = Ok parsedIndexes
    /\ normalizedIndexes (table metadata) (spread parsedIndexes) = Ok normalized
    /\ forall key,
         Obj.get (props (deref st' out)) key
         = match Obj.get normalized key with
           | Some v => Some v
           | None =>
               match Obj.get normalizedPrimaryKey key with
               | Some v => Some v
               | None => Obj.get (spread (VObj working)) key
               end
           end.
Proof.
  intros entityClass metadata working Hout.
  destruct (toDynamoEntity_run connection entity st) as [fresh Hrun].
  fold entityClass working in Hrun.
  destruct (storage_attributes connection entityClass working) as [o|e] eqn:Es;
    rewrite Hrun in Hout; inversion Hout; subst; clear Hout.
  rewrite deref_new. simpl props.
  unfold storage_attributes in Es. fold metadata in Es.
  destruct (recursiveParseEntity (schema metadata) working false)
    as [parsedSchema|] eqn:E1; simpl in Es; [|discriminate].
  destruct (match Obj.get (schema metadata) "primaryKey" with
            | Some x => Ok x
            | None => Ok VUndefined
            end) as [primaryKey|] eqn:E2; simpl in Es; [|discriminate].
  destruct (getParsedPrimaryKey (table metadata) primaryKey working)
    as [npk|] eqn:E3; simpl in Es; [|discriminate].
  destruct (match Obj.get parsedSchema "indexes" with
            | Some x => Ok x
            | None => Ok VUndefined
            end) as [parsedIndexes|] eqn:E4; simpl in Es; [|discriminate].
  destruct (normalizedIndexes (table metadata) (spread parsedIndexes))
    as [normalized|] eqn:E5; simpl in Es; [|discriminate].
  inversion Es; subst o.
  exists parsedSchema, primaryKey, npk, parsedIndexes, normalized.
  repeat split; auto.
  intros key.
  rewrite ObjAssign.get_assign_wf
    by apply ObjAssign.assign_wf, ObjAssign.spread_wf.
  rewrite ObjAssign.get_assign_wf by (eapply normalizedIndexes_wf; eauto).
  rewrite ObjAssign.get_spread_wf by (eapply getParsedPrimaryKey_wf; eauto).
  destruct (Obj.get normalized key); auto.
Qed.

Lemma toDynamoEntity_precedence_witness :
  let connection :=
    {| getEntityByTarget := fun _ =>
         {| table := {| name := "users"; indexes := [] |};
            schema :=
              [("primaryKey",
                VObj [("attributes", VObj [("id", VStr "USER#{id}")])])] |};
       getAttributesForEntity := fun _ => [] |} in
  let st := [{| constructor := "User"; props := [("id", VStr "42")] |}] in
  let st' := st ++ [{| constructor := "Object";
                       props := [("id", VStr "USER#42")] |}] in
  toDynamoEntity connection 0 st = (Ok 1, st')
  /\ Obj.get (props (deref st' 1)) "id" = Some (VStr "USER#42").
Proof.
  intros connection st st'.
  assert (Hrun : toDynamoEntity connection 0 st = (Ok 1, st')) by reflexivity.
  split; [exact Hrun|].
  destruct (toDynamoEntity_precedence connection 0 st st' 1 Hrun)
    as [parsedSchema [primaryKey [npk [parsedIndexes [normalized
         [H1 [H2 [H3 [H4 [H5 Hget]]]]]]]]]].
  rewrite Hget.
  vm_compute in H2. inversion H2; subst primaryKey.
  vm_compute in H3. inversion H3; subst npk.
  vm_compute in H1. inversion H1; subst parsedSchema.
  vm_compute in H4. inversion H4; subst parsedIndexes.
  vm_compute in H5. inversion H5; subst normalized.
  reflexivity.
Defined.

(** ** Auto-generated attributes *)

Lemma merge_generated_wf fields attr :
  Obj.wf fields = true -> Obj.wf (merge_generated fields attr) = true.
Proof.
  destruct attr; simpl; auto. intros _.
  apply ObjAssign.set_wf, ObjAssign.spread_wf.
Qed.

Lemma last_generated_from attrs key found :
  fold_left
    (fun found attr =>
       match attr with
       | PlainAttribute _ => found
       | AutoGeneratedAttribute attr_name attr_value =>
           if String.eqb attr_name key then Some attr_value else found
       end) attrs found
  = match last_generated attrs key with
    | Some v => Some v
    | None => found
    end.
Proof.
  unfold last_generated. revert found.
  induction attrs as [|[n | n v] rest IH]; intros found; simpl; auto.
  destruct (String.eqb n key); auto.
  rewrite (IH (Some v)), (IH None).
  now destruct (fold_left _ rest None).
Qed.

Lemma working_entity_get attrs key :
  forall fields, Obj.wf fields = true ->
    Obj.get (working_entity attrs fields) key
    = match last_generated attrs key with
      | Some v => Some v
      | None => Obj.get fields key
      end.
Proof.
  unfold working_entity.
  induction attrs as [|attr rest IH]; intros fields Hwf; simpl; auto.
  rewrite IH by now apply merge_generated_wf.
  unfold last_generated. simpl. destruct attr as [n | n v]; simpl; auto.
  fold (last_generated rest key).
  destruct (String.eqb n key) eqn:E.
  - rewrite last_generated_from.
    apply String.eqb_eq in E. subst.
    destruct (last_generated rest key); auto.
    apply ObjFacts.get_set_same.
  - fold (last_generated rest key).
    destruct (last_generated rest key); auto.
    apply String.eqb_neq in E.
    rewrite ObjFacts.get_set_other by congruence.
    now apply ObjAssign.get_spread_wf.
Qed.

(** After the [forEach] over the attribute descriptors, the working
    entity holds under each name the value of the last auto-generated
    descriptor of that name, and the caller's own value where there is
    none. *)
Theorem populate_generated_lookup
  (attrs : list AttributeMetadata) (entity l : loc) (st st' : store)
  (key : string) :
  Obj.wf (props (deref st entity)) = true ->
  populate_generated attrs entity st = (Ok l, st') ->
  Obj.get (props (deref st' l)) key
  = match last_generated attrs key with
    | Some v => Some v
    | None => Obj.get (props (deref st entity)) key
    end.
Proof.
  intros Hwf Hrun.
  destruct (populate_generated_run attrs entity st)
    as [l0 [fresh [Hrun0 [Hprops _]]]].
  rewrite Hrun0 in Hrun. inversion Hrun; subst.
  rewrite Hprops. now apply working_entity_get.
Qed.

Lemma populate_generated_lookup_witness :
  let st := [{| constructor := "User";
                props := [("id", VStr "42"); ("name", VStr "Ada")] |}] in
  let attrs := [AutoGeneratedAttribute "id" (VStr "first");
                PlainAttribute "name";
                AutoGeneratedAttribute "id" (VStr "second")] in
  Obj.get (props (deref (snd (populate_generated attrs 0 st))
                    2)) "id"
  = Some (VStr "second").
Proof.
  intros st attrs.
  apply (populate_generated_lookup attrs 0 2 st
           (snd (populate_generated attrs 0 st)) "id");
    reflexivity.
Defined.

(** When no descriptor is auto-generated the [forEach] makes no copy: the
    working entity is the caller's own object and the store is as
    before. *)
Theorem populate_generated_without_generated
  (attrs : list AttributeMetadata) (entity : loc) (st : store) :
  forallb is_plain attrs = true ->
  populate_generated attrs entity st = (Ok entity, st).
Proof.
  intros Hplain.
  destruct (populate_generated_run attrs entity st)
    as [l [fresh [Hrun [_ Hsame]]]].
  destruct (Hsame Hplain) as [-> ->]. now rewrite app_nil_r in Hrun.
Qed.

Lemma populate_generated_without_generated_witness :
  populate_generated [PlainAttribute "id"; PlainAttribute "name"] 0
    [{| constructor := "User"; props := [("id", VStr "42")] |}]
  = (Ok 0, [{| constructor := "User"; props := [("id", VStr "42")] |}]).
Proof.
  apply (populate_generated_without_generated
           [PlainAttribute "id"; PlainAttribute "name"] 0
           [{| constructor := "User"; props := [("id", VStr "42")] |}]).
  reflexivity.
Defined.

(** ** Values of a normalised index *)

Lemma get_prop_object_value (o : obj) (k : string) :
  get_prop (VObj o) k
  = Ok (match Obj.get o k with
        | Some v => v
        | None => VUndefined
        end).
Proof. simpl. now destruct (Obj.get o k). Qed.

(** In the match case each signature key carries what the resolved
    attributes hold under that very name, and [undefined] when they hold
    nothing. *)
Theorem onlyKeysIndex_values_by_name
  (sig : IndexOptions) (index declared : value) (attributes : obj) :
  declared_type index = Ok declared ->
  is_index_type declared (IndexOptions_type sig) = true ->
  get_prop index "attributes" = Ok (VObj attributes) ->
  exists normalized,
    onlyKeysIndex (Some sig) index = Ok (VObj normalized)
    /\ forall k, In k (signature_keys sig) ->
         Obj.get normalized k
         = Some (match Obj.get attributes k with
                 | Some v => v
                 | None => VUndefined
                 end).
Proof.
  intros Hd Ht Ha. unfold onlyKeysIndex.
  destruct sig as [partitionKey sortKey | sortKey]; simpl in Ht.
  - rewrite (both_of_type_match _ _ _ _ Hd), Ht. simpl. rewrite Ha.
    cbv beta iota delta [bind]. rewrite !get_prop_object_value.
    exists (Obj.set
              (Obj.set [] partitionKey
                 match Obj.get attributes partitionKey with
                 | Some v => v
                 | None => VUndefined
                 end)
              sortKey
              match Obj.get attributes sortKey with
              | Some v => v
              | None => VUndefined
              end).
    split; [reflexivity|].
    intros k [<- | [<- | []]]; [|apply ObjFacts.get_set_same].
    destruct (String.eqb partitionKey sortKey) eqn:E.
    + apply String.eqb_eq in E. subst sortKey. apply ObjFacts.get_set_same.
    + apply String.eqb_neq in E.
      rewrite ObjFacts.get_set_other by congruence.
      apply ObjFacts.get_set_same.
  - rewrite (both_of_type_match _ _ _ _ Hd). simpl. rewrite andb_false_r. simpl.
    rewrite (both_of_type_match _ _ _ _ Hd), Ht. simpl. rewrite Ha.
    cbv beta iota delta [bind]. rewrite !get_prop_object_value.
    exists (Obj.set [] sortKey
              match Obj.get attributes sortKey with
              | Some v => v
              | None => VUndefined
              end).
    split; [reflexivity|].
    intros k [<- | []]. apply ObjFacts.get_set_same.
Qed.

Lemma onlyKeysIndex_values_by_name_witness :
  exists normalized,
    onlyKeysIndex (Some (GSIOptions "GSI1PK" "GSI1SK"))
      (VObj [("attributes", VObj [("GSI1SK", VStr "b"); ("extra", VStr "c")]);
             ("metadata", VObj [("type", INDEX_TYPE_value GSI)])])
    = Ok (VObj normalized)
    /\ forall k, In k (signature_keys (GSIOptions "GSI1PK" "GSI1SK")) ->
         Obj.get normalized k
         = Some (match Obj.get [("GSI1SK", VStr "b"); ("extra", VStr "c")] k with
                 | Some v => v
                 | None => VUndefined
                 end).
Proof.
  apply (onlyKeysIndex_values_by_name
           (GSIOptions "GSI1PK" "GSI1SK")
           (VObj [("attributes", VObj [("GSI1SK", VStr "b"); ("extra", VStr "c")]);
                  ("metadata", VObj [("type", INDEX_TYPE_value GSI)])])
           (INDEX_TYPE_value GSI)
           [("GSI1SK", VStr "b"); ("extra", VStr "c")]);
    reflexivity.
Defined.

(** ** Index collisions *)

(** Indexes are merged in [Object.keys] order: whatever the last index
    contributes is in the normalised map with the last index's value. *)
Theorem normalizedIndexes_last_index_wins
  (table : Table) (before : obj) (key : string) (index : value) (r : obj) :
  normalizedIndexes table (before ++ [(key, index)]) = Ok r ->
  exists index_name only,
    (metadata <- get_prop index "metadata" ;; get_prop metadata "_name")
    = Ok index_name
    /\ onlyKeysIndex (getIndexByKey table (nullish_or index_name (VStr "")))
         index = Ok only
    /\ forall k v, Obj.get (spread only) k = Some v -> Obj.get r k = Some v.
Proof.
  unfold normalizedIndexes. rewrite fold_left_app. simpl.
  destruct (fold_left (normalize_step table) before (Ok [])) as [acc|e];
    [|discriminate].
  intros Hstep. apply normalize_step_ok in Hstep. simpl in Hstep.
  destruct Hstep as [index_name [only [Hname [Honly ->]]]].
  exists index_name, only. repeat split; auto.
  intros k v. unfold spread. rewrite !ObjAssign.get_assign_rev.
  destruct (Obj.get (rev (own_entries only)) k); auto. discriminate.
Qed.

Lemma normalizedIndexes_last_index_wins_witness :
  exists index_name only,
    (metadata <- get_prop
                   (VObj [("attributes", VObj [("SK2", VStr "second")]);
                          ("metadata", VObj [("_name", VStr "LSI2");
                                             ("type", INDEX_TYPE_value LSI)])])
                   "metadata" ;;
     get_prop metadata "_name") = Ok index_name
    /\ onlyKeysIndex
         (getIndexByKey
            {| name := "users";
               indexes := [("LSI1", LSIOptions "SK2"); ("LSI2", LSIOptions "SK2")] |}
            (nullish_or index_name (VStr "")))
         (VObj [("attributes", VObj [("SK2", VStr "second")]);
                ("metadata", VObj [("_name", VStr "LSI2");
                                   ("type", INDEX_TYPE_value LSI)])])
       = Ok only
    /\ forall k v, Obj.get (spread only) k = Some v ->
                   Obj.get [("SK2", VStr "second")] k = Some v.
Proof.
  apply (normalizedIndexes_last_index_wins
           {| name := "users";
              indexes := [("LSI1", LSIOptions "SK2"); ("LSI2", LSIOptions "SK2")] |}
           [("LSI1",
             VObj [("attributes", VObj [("SK2", VStr "first")]);
                   ("metadata", VObj [("_name", VStr "LSI1");
                                      ("type", INDEX_TYPE_value LSI)])])]
           "LSI2"
           (VObj [("attributes", VObj [("SK2", VStr "second")]);
                  ("metadata", VObj [("_name", VStr "LSI2");
                                     ("type", INDEX_TYPE_value LSI)])])
           [("SK2", VStr "second")]).
  reflexivity.
Defined.

(** ** The affected-index calculator, binding by binding *)

Lemma interpolation_step_ok currIndex attributes attrKey acc
  interpolationKey names acc' :
  interpolation_step currIndex attributes attrKey (Ok acc)
    (interpolationKey, names) = Ok acc' ->
  (includes names attrKey = Ok false /\ acc' = acc)
  \/ (includes names attrKey = Ok true
      /\ exists template parsed,
           index_template currIndex interpolationKey = Ok template
           /\ parseKey template attributes false = Ok parsed
           /\ acc' = Obj.set acc interpolationKey parsed).
Proof.
  unfold interpolation_step, index_template. simpl.
  destruct (includes names attrKey) as [[|]|]; simpl; try discriminate.
  - destruct (get_prop currIndex "attributes") as [index_attributes|]; simpl;
      [|discriminate].
    destruct (get_prop index_attributes interpolationKey) as [template|];
      simpl; [|discriminate].
    destruct (parseKey template attributes false) as [parsed|] eqn:Ep; simpl;
      [|discriminate].
    intros H. inversion H. right. split; auto.
    exists template, parsed. auto.
  - intros H. inversion H. now left.
Qed.

Lemma index_step_ok attributes attrKey acc kv acc' :
  index_step attributes attrKey (Ok acc) kv = Ok acc' ->
  exists entries,
    interpolations_of (snd kv) = Ok entries
    /\ fold_left (interpolation_step (snd kv) attributes attrKey) entries
         (Ok acc) = Ok acc'.
Proof.
  unfold index_step, interpolations_of, isEmptyObject. simpl.
  destruct (get_prop (snd kv) "metadata") as [metadata|]; simpl;
    [|discriminate].
  destruct (get_prop metadata "_interpolations") as [declared|]; simpl;
    [|discriminate].
  destruct (own_entries (nullish_or declared (VObj []))) as [|entry entries];
    eauto.
Qed.

Lemma own_entries_truthy (v : value) (kv : string * value) :
  In kv (own_entries v) -> truthy v = true.
Proof. destruct v as [| | | |[|c s]| |]; simpl; auto; contradiction. Qed.

Lemma own_entries_falsy (v : value) : truthy v = false -> own_entries v = [].
Proof.
  destruct v as [| | | |[|c s]| |]; simpl; auto; discriminate.
Qed.

Lemma attribute_step_ok sep indexes attributes acc attrKey currAttrValue acc' :
  attribute_step sep indexes attributes (Ok acc) (attrKey, currAttrValue)
  = Ok acc' ->
  (str_includes attrKey sep || negb (isScalarType currAttrValue) = true
   /\ acc' = acc)
  \/ (str_includes attrKey sep || negb (isScalarType currAttrValue) = false
      /\ fold_left (index_step attributes attrKey) (own_entries indexes)
           (Ok acc) = Ok acc').
Proof.
  unfold attribute_step. simpl.
  destruct (str_includes attrKey sep || negb (isScalarType currAttrValue)).
  - intros H. inversion H. now left.
  - destruct (truthy indexes) eqn:Et; simpl; auto.
    intros H. right. split; auto.
    now rewrite (own_entries_falsy _ Et).
Qed.

(** An entity whose schema has no [indexes] (or a falsy one) has no
    affected index, whatever changes. *)
Theorem getAffectedIndexes_without_indexes
  (connection : Connection) (entityClass : EntityTarget) (attributes : obj)
  (options : option string) :
  truthy (declared_indexes connection entityClass) = false ->
  getAffectedIndexesForAttributes connection entityClass attributes options
  = Ok [].
Proof.
  intros Hnone. unfold getAffectedIndexesForAttributes.
  generalize attributes at 1 as dict. intros dict.
  induction attributes as [|[attrKey currAttrValue] rest IH]; simpl; auto.
  rewrite Hnone. simpl.
  now destruct (str_includes attrKey (separator_of options)
                || negb (isScalarType currAttrValue)).
Qed.

Lemma getAffectedIndexes_without_indexes_witness :
  getAffectedIndexesForAttributes
    {| getEntityByTarget := fun _ =>
         {| table := {| name := "users"; indexes := [] |};
            schema :=
              [("primaryKey",
                VObj [("attributes", VObj [("PK", VStr "USER#{id}")])])] |};
       getAttributesForEntity := fun _ => [] |}
    "User" [("status", VStr "active")] None
  = Ok [].
Proof.
  apply getAffectedIndexes_without_indexes. reflexivity.
Defined.

(** Every binding of the affected-index map is keyed by an interpolation
    key of some index whose entry references a changed attribute, and its
    value is the non-sparse resolution, against the whole change set, of
    the template that index declares under that key. *)
Theorem getAffectedIndexes_bindings_justified
  (connection : Connection) (entityClass : EntityTarget) (attributes : obj)
  (options : option string) (r : obj) (interpolationKey : string)
  (parsed : value) :
  getAffectedIndexesForAttributes connection entityClass attributes options
  = Ok r ->
  In (interpolationKey, parsed) r ->
  justified (declared_indexes connection entityClass) attributes
    interpolationKey parsed.
Proof.
  unfold getAffectedIndexesForAttributes.
  set (indexes := declared_indexes connection entityClass).
  set (sep := separator_of options).
  intros Hr. revert interpolationKey parsed.
  apply (fold_result_invariant (attribute_step sep indexes attributes)
           (fun o => forall k v, In (k, v) o -> justified indexes attributes k v)
           attributes (attribute_step_error sep indexes attributes)) with (acc := []);
    [| intros k v [] | exact Hr].
  intros acc [attrKey currAttrValue] acc' Hattr Hacc Hstep.
  apply attribute_step_ok in Hstep.
  destruct Hstep as [[_ ->] | [_ Hfold]]; auto.
  apply (fold_result_invariant (index_step attributes attrKey)
           (fun o => forall k v, In (k, v) o -> justified indexes attributes k v)
           (own_entries indexes) (index_step_error attributes attrKey))
    with (acc := acc); [| exact Hacc | exact Hfold].
  intros acc1 [index_name index] acc1' Hindex Hacc1 Hstep1.
  apply index_step_ok in Hstep1. simpl in Hstep1.
  destruct Hstep1 as [entries [Hentries Hfold1]].
  apply (fold_result_invariant (interpolation_step index attributes attrKey)
           (fun o => forall k v, In (k, v) o -> justified indexes attributes k v)
           entries (interpolation_step_error index attributes attrKey))
    with (acc := acc1); [| exact Hacc1 | exact Hfold1].
  intros acc2 [ik names] acc2' Hentry Hacc2 Hstep2.
  apply interpolation_step_ok in Hstep2.
  destruct Hstep2 as [[_ ->] | [Hhit [template [v0 [Ht [Hp ->]]]]]]; auto.
  intros k v Hin. apply ObjAssign.in_set in Hin.
  destruct Hin as [Heq | Hin]; auto.
  inversion Heq; subst k v.
  exists index_name, index, entries, names, attrKey, template.
  repeat split; auto.
  eapply ObjFacts.in_keys; eauto.
Qed.

Lemma getAffectedIndexes_bindings_justified_witness :
  justified
    (VObj [("GSI1",
            VObj [("attributes", VObj [("GSI1PK", VStr "STATUS#{status}")]);
                  ("metadata",
                   VObj [("_interpolations",
                          VObj [("GSI1PK", VArr [VStr "status"])])])])])
    [("status", VStr "active")] "GSI1PK" (VStr "STATUS#active").
Proof.
  apply (getAffectedIndexes_bindings_justified
           {| getEntityByTarget := fun _ =>
                {| table := {| name := "users"; indexes := [] |};
                   schema :=
                     [("indexes",
                       VObj [("GSI1",
                              VObj [("attributes",
                                     VObj [("GSI1PK", VStr "STATUS#{status}")]);
                                    ("metadata",
                                     VObj [("_interpolations",
                                            VObj [("GSI1PK",
                                                   VArr [VStr "status"])])])])])] |};
              getAttributesForEntity := fun _ => [] |}
           "User" [("status", VStr "active")] None
           [("GSI1PK", VStr "STATUS#active")]).
  - reflexivity.
  - simpl. left. reflexivity.
Defined.

Lemma has_set_keeps (o : obj) (k k' : string) (v : value) :
  Obj.has o k = true -> Obj.has (Obj.set o k' v) k = true.
Proof.
  unfold Obj.has. destruct (string_dec k k') as [-> | Hne].
  - now rewrite ObjFacts.get_set_same.
  - now rewrite ObjFacts.get_set_other.
Qed.

Lemma interpolation_fold_keeps currIndex attributes attrKey k entries acc r :
  Obj.has acc k = true ->
  fold_left (interpolation_step currIndex attributes attrKey) entries (Ok acc)
  = Ok r ->
  Obj.has r k = true.
Proof.
  apply (fold_result_invariant (interpolation_step currIndex attributes attrKey)
           (fun o => Obj.has o k = true) entries
           (interpolation_step_error currIndex attributes attrKey)).
  intros a [ik names] a' _ Ha Hs. apply interpolation_step_ok in Hs.
  destruct Hs as [[_ ->] | [_ [template [parsed [_ [_ ->]]]]]]; auto.
  now apply has_set_keeps.
Qed.

Lemma index_fold_keeps attributes attrKey k entries acc r :
  Obj.has acc k = true ->
  fold_left (index_step attributes attrKey) entries (Ok acc) = Ok r ->
  Obj.has r k = true.
Proof.
  apply (fold_result_invariant (index_step attributes attrKey)
           (fun o => Obj.has o k = true) entries
           (index_step_error attributes attrKey)).
  intros a kv a' _ Ha Hs. apply index_step_ok in Hs.
  destruct Hs as [interps [_ Hfold]].
  eapply interpolation_fold_keeps; eauto.
Qed.

Lemma attribute_step_keeps sep indexes attributes k acc kv acc' :
  Obj.has acc k = true ->
  attribute_step sep indexes attributes (Ok acc) kv = Ok acc' ->
  Obj.has acc' k = true.
Proof.
  destruct kv as [attrKey currAttrValue]. intros Ha Hs.
  apply attribute_step_ok in Hs. destruct Hs as [[_ ->] | [_ Hfold]]; auto.
  eapply index_fold_keeps; eauto.
Qed.

(** When the calculator returns, every interpolation key whose entry
    references a changed attribute that is scalar and not a nested key is
    bound in the result. *)
Theorem getAffectedIndexes_binds_referenced_key
  (connection : Connection) (entityClass : EntityTarget) (attributes : obj)
  (options : option string) (r : obj) (attrKey : string)
  (currAttrValue : value) (index_name : string) (index : value)
  (entries : obj) (interpolationKey : string) (names : value) :
  getAffectedIndexesForAttributes connection entityClass attributes options
  = Ok r ->
  In (attrKey, currAttrValue) attributes ->
  str_includes attrKey (separator_of options) = false ->
  isScalarType currAttrValue = true ->
  In (index_name, index) (own_entries (declared_indexes connection entityClass)) ->
  interpolations_of index = Ok entries ->
  In (interpolationKey, names) entries ->
  includes names attrKey = Ok true ->
  Obj.has r interpolationKey = true.
Proof.
  unfold getAffectedIndexesForAttributes.
  set (indexes := declared_indexes connection entityClass).
  set (sep := separator_of options).
  intros Hr Hattr Hsep Hscalar Hindex Hentries Hentry Hhit.
  apply (fold_result_reaches (attribute_step sep indexes attributes)
           (fun o => Obj.has o interpolationKey = true)
           attributes (attrKey, currAttrValue)
           (attribute_step_error sep indexes attributes) Hattr)
    with (acc := []); [| | exact Hr].
  - intros acc acc' Hs. apply attribute_step_ok in Hs.
    destruct Hs as [[Hskip _] | [_ Hfold]].
    { rewrite Hsep, Hscalar in Hskip. discriminate. }
    apply (fold_result_reaches (index_step attributes attrKey)
             (fun o => Obj.has o interpolationKey = true)
             (own_entries indexes) (index_name, index)
             (index_step_error attributes attrKey) Hindex)
      with (acc := acc); [| | exact Hfold].
    + intros acc1 acc1' Hs1. apply index_step_ok in Hs1. simpl in Hs1.
      destruct Hs1 as [entries' [Hentries' Hfold1]].
      rewrite Hentries in Hentries'. inversion Hentries'; subst entries'.
      apply (fold_result_reaches (interpolation_step index attributes attrKey)
               (fun o => Obj.has o interpolationKey = true)
               entries (interpolationKey, names)
               (interpolation_step_error index attributes attrKey) Hentry)
        with (acc := acc1); [| | exact Hfold1].
      * intros acc2 acc2' Hs2. apply interpolation_step_ok in Hs2.
        destruct Hs2 as [[Hno _] | [_ [template [parsed [_ [_ ->]]]]]].
        -- rewrite Hhit in Hno. discriminate.
        -- unfold Obj.has. now rewrite ObjFacts.get_set_same.
      * intros acc2 [ik nm] acc2' Hq Hs2.
        apply interpolation_step_ok in Hs2.
        destruct Hs2 as [[_ ->] | [_ [template [parsed [_ [_ ->]]]]]]; auto.
        now apply has_set_keeps.
    + intros acc1 kv acc1' Hq Hs1. apply index_step_ok in Hs1.
      destruct Hs1 as [interps [_ Hfold1]].
      eapply interpolation_fold_keeps; eauto.
  - intros acc kv acc' Hq Hs. eapply attribute_step_keeps; eauto.
Qed.

Lemma getAffectedIndexes_binds_referenced_key_witness :
  Obj.has [("GSI1PK", VStr "STATUS#active")] "GSI1PK" = true.
Proof.
  apply (getAffectedIndexes_binds_referenced_key
           {| getEntityByTarget := fun _ =>
                {| table := {| name := "users"; indexes := [] |};
                   schema :=
                     [("indexes",
                       VObj [("GSI1",
                              VObj [("attributes",
                                     VObj [("GSI1PK", VStr "STATUS#{status}")]);
                                    ("metadata",
                                     VObj [("_interpolations",
                                            VObj [("GSI1PK",
                                                   VArr [VStr "status"])])])])])] |};
              getAttributesForEntity := fun _ => [] |}
           "User" [("name", VStr "Ada"); ("status", VStr "active")] None
           [("GSI1PK", VStr "STATUS#active")]
           "status" (VStr "active") "GSI1"
           (VObj [("attributes", VObj [("GSI1PK", VStr "STATUS#{status}")]);
                  ("metadata",
                   VObj [("_interpolations",
                          VObj [("GSI1PK", VArr [VStr "status"])])])])
           [("GSI1PK", VArr [VStr "status"])]
           "GSI1PK" (VArr [VStr "status"])).
  - reflexivity.
  - simpl. right. left. reflexivity.
  - reflexivity.
  - reflexivity.
  - simpl. left. reflexivity.
  - reflexivity.
  - simpl. left. reflexivity.
  - reflexivity.
Defined.

(** ** A signature the table does not have *)

(** For an index declared as a GSI or an LSI, a missing table signature
    makes the normaliser throw [TypeError]: the fallback that returns the
    index is reached only past the read of the signature's type. *)
Theorem onlyKeysIndex_missing_signature_type_error
  (index declared : value) :
  declared_type index = Ok declared ->
  is_index_type declared GSI = true \/ is_index_type declared LSI = true ->
  onlyKeysIndex None index = Error TypeError.
Proof.
  intros Hd [Hg | Hl]; unfold onlyKeysIndex, both_of_type; rewrite Hd; simpl.
  - now rewrite Hg.
  - destruct (is_index_type declared GSI) eqn:Hg; simpl; auto.
    now rewrite Hl.
Qed.

Lemma onlyKeysIndex_missing_signature_type_error_witness :
  onlyKeysIndex None
    (VObj [("attributes", VObj [("LSI1SK", VStr "a")]);
           ("metadata", VObj [("_name", VStr "LSI1");
                              ("type", INDEX_TYPE_value LSI)])])
  = Error TypeError.
Proof.
  apply (onlyKeysIndex_missing_signature_type_error
           (VObj [("attributes", VObj [("LSI1SK", VStr "a")]);
                  ("metadata", VObj [("_name", VStr "LSI1");
                                     ("type", INDEX_TYPE_value LSI)])])
           (INDEX_TYPE_value LSI)).
  - reflexivity.
  - right. reflexivity.
Defined.
